(** * cicerone/dsl: grouped log entries and timeline construction

    A shallow embedding of [dsl/grouped_entries.go].  The Go struct

      type GroupedEntries struct {
          Keys    []interface{}
          Entries []Entries
          lookup  map[interface{}]int
      }

    becomes a record with the fields [g_Keys], [g_Entries] and [g_lookup]
    (the Go names are taken: [Entries] is also the slice type, [lookup]
    the map operation of stdpp).  A method that assigns through its
    pointer receiver returns the receiver's new contents, and a run-time
    panic is an explicit outcome.  Slices are modelled by their contents:
    a nil slice and an empty slice are both the empty list.  A second
    model, further down, keeps the maps in a heap and runs [Filter]
    through pointers. *)

From stdpp Require Import gmap list strings.

Set Default Proof Using "Type".

(** ** Outcomes of running Go code *)

Inductive panic : Set :=
  | index_out_of_range
  | assignment_to_nil_map
  | nil_dereference.

Inductive result (A : Type) : Type :=
  | Ok (a : A)
  | Panic (p : panic).
Arguments Ok {A} a.
Arguments Panic {A} p.

#[global] Instance result_ret : MRet result := λ A a, Ok a.
#[global] Instance result_bind : MBind result := λ A B k r,
  match r with
  | Ok a => k a
  | Panic p => Panic p
  end.

(** Go's [error] interface: [None] is the nil error, [Some msg] an error
    whose [Error()] text is [msg]. *)
Definition error := option string.

(** [v, ok := m[k]] on a map that may be nil: a missing key, or any key of
    a nil map, reads as the zero value with [ok = false]. *)
Definition map_read `{Countable K} (m : option (gmap K nat)) (k : K) : nat * bool :=
  match m with
  | Some m' => match m' !! k with
               | Some v => (v, true)
               | None => (0, false)
               end
  | None => (0, false)
  end.

(** [m[k] = v]: assignment to an entry of a nil map panics. *)
Definition map_assign `{Countable K}
    (m : option (gmap K nat)) (k : K) (v : nat) : result (option (gmap K nat)) :=
  match m with
  | Some m' => Ok (Some (<[k := v]> m'))
  | None => Panic assignment_to_nil_map
  end.

(** The text of ["\n"]. *)
Definition newline : string := String (Ascii.ascii_of_nat 10) EmptyString.

(** [s[i]] on a slice: out of range panics. *)
Definition index {A} (s : list A) (i : nat) : result A :=
  match s !! i with
  | Some a => Ok a
  | None => Panic index_out_of_range
  end.

Section dsl.
(** Keys are [interface{}] values used as map keys: a type with a
    decidable (reflexive) equality that can be hashed. *)
Context {K : Type} `{Countable K}.

(** The log record; [zeroEntry] is Go's [Entry{}]. *)
Context {Entry : Type} (zeroEntry : Entry).

(** [type Entries []Entry]. *)
Abbreviation Entries := (list Entry) (only parsing).

(** The [Matcher] interface has the one method [Match(Entry) bool]. *)
Abbreviation Matcher := (Entry → bool) (only parsing).

Record GroupedEntries := mkGroupedEntries {
  g_Keys : list K;
  g_Entries : list Entries;
  g_lookup : option (gmap K nat);
}.

Definition NewGroupedEntries : GroupedEntries :=
  {| g_Keys := []; g_Entries := []; g_lookup := Some ∅ |}.

Definition AppendEntries (g : GroupedEntries) (key : K) (entries : Entries)
    : result GroupedEntries :=
  g1 ← (if (map_read (g_lookup g) key).2 then Ok g
         else
           let keys := g_Keys g ++ [key] in
           let groups := g_Entries g ++ [[]] in
           lk ← map_assign (g_lookup g) key (length keys - 1);
           Ok {| g_Keys := keys; g_Entries := groups; g_lookup := lk |});
  let i := (map_read (g_lookup g1) key).1 in
  old ← index (g_Entries g1) i;
  Ok {| g_Keys := g_Keys g1;
        g_Entries := <[i := old ++ entries]> (g_Entries g1);
        g_lookup := g_lookup g1 |}.

Definition Append (g : GroupedEntries) (key : K) (entry : Entry)
    : result GroupedEntries :=
  AppendEntries g key [entry].

Definition Lookup (g : GroupedEntries) (key : K) : result (Entries * bool) :=
  let '(i, ok) := map_read (g_lookup g) key in
  if negb ok then Ok ([], false)
  else es ← index (g_Entries g) i; Ok (es, true).

(** The structural invariant of the data model: parallel slices, distinct
    keys, and an allocated [lookup] that holds exactly the position of
    every key. *)
Record wf (g : GroupedEntries) : Prop := {
  wf_length : length (g_Keys g) = length (g_Entries g);
  wf_NoDup : NoDup (g_Keys g);
  wf_lookup : ∃ m, g_lookup g = Some m ∧
                ∀ k i, m !! k = Some i ↔ g_Keys g !! i = Some k;
}.

(** *** Iteration

    The visitor is a Go closure.  Its effects are modelled as a state [St]
    that it threads (the variables it captures); it may itself panic.
    It is not given the receiver, so it cannot assign through [g] while
    the loop runs.  [EachGroup_from g f n i] is the loop
    [for ; i < len(g.Keys); i++] with [n = len(g.Keys) - i] iterations
    left; [ptr_EachGroup_from_refines] relates it to the loop that reads
    the receiver through a pointer at every iteration. *)
Abbreviation visitor St := (K → Entries → St → result (error * St))
  (only parsing).

Fixpoint EachGroup_from {St} (g : GroupedEntries) (f : visitor St)
    (n i : nat) (s : St) : result (error * St) :=
  match n with
  | 0 => Ok (None, s)
  | S n' =>
      key ← index (g_Keys g) i;
      entries ← index (g_Entries g) i;
      '(err, s') ← f key entries s;
      match err with
      | Some _ => Ok (err, s')
      | None => EachGroup_from g f n' (S i) s'
      end
  end.

Definition EachGroup {St} (g : GroupedEntries) (f : visitor St) (s : St)
    : result (error * St) :=
  EachGroup_from g f (length (g_Keys g)) 0 s.

(** *** The [Entries] collaborator, of [dsl/entries.go] *)

(** Modelled from the spec: [Entries.Filter], missing from the sources;
    "Filter(matcher) -> Entries", the sub-sequence of the entries
    satisfying the matcher. *)
Definition Entries_Filter (e : Entries) (matcher : Matcher) : Entries :=
  filter (λ x, matcher x = true) e.

(** Modelled from the spec: [Entries.First], missing from the sources;
    "First(matcher) -> (Entry, found) (earliest matching entry in
    sequence order)". *)
Fixpoint Entries_First (e : Entries) (matcher : Matcher) : Entry * bool :=
  match e with
  | [] => (zeroEntry, false)
  | x :: e' => if matcher x then (x, true) else Entries_First e' matcher
  end.

(** *** Filter *)
Definition Filter (g : GroupedEntries) (matcher : Matcher)
    : result GroupedEntries :=
  let filteredGroups := NewGroupedEntries in
  '(_, filteredGroups) ←
    EachGroup g (λ key entries filteredGroups,
      let filtered := Entries_Filter entries matcher in
      if bool_decide (0 < length filtered) then
        filteredGroups ← AppendEntries filteredGroups key filtered;
        Ok (None, filteredGroups)
      else Ok (None, filteredGroups)) filteredGroups;
  Ok filteredGroups.

(** *** Anchor selection

    [Entries] implements [sort.Interface]; [Less e1 e2] is what
    [Less(i, j)] answers when [e1] and [e2] sit at [i] and [j].
    [sort_Sort] is the order in which [sort.Sort] leaves its argument. *)
Context (Less : Entry → Entry → bool).
Context (sort_Sort : Entries → Entries).

(** [sort.IsSorted]: [for i := n - 1; i > 0; i-- { if Less(i, i-1) {
    return false } }; return true]. *)
Fixpoint IsSorted (e : Entries) : bool :=
  match e with
  | x :: (y :: _) as e' => negb (Less y x) && IsSorted e'
  | _ => true
  end.

Definition first (g : GroupedEntries) (matcher : Matcher)
    : result (Entry * bool) :=
  let firsts :=
    foldl (λ firsts entries,
             let '(fst, found) := Entries_First entries matcher in
             if found then firsts ++ [fst] else firsts)
          [] (g_Entries g) in
  if bool_decide (length firsts = 0) then Ok (zeroEntry, false)
  else
    let firsts := sort_Sort firsts in
    e ← index firsts 0;
    Ok (e, true).

(** *** Timelines

    Of [TimelinePoint] the code uses the [Matcher] field and the [%+v]
    rendering; of [Timeline] the [Annotation] field.  The other fields of
    a [Timeline] are kept as [t_rest]. *)
Context {TimelinePoint : Type}.
Context (point_Matcher : TimelinePoint → Matcher).
Context (fmt_v : TimelinePoint → string).
Abbreviation TimelineDescription := (list TimelinePoint) (only parsing).

Context {TimelineRest : Type}.
Record Timeline := mkTimeline {
  Annotation : K;
  t_rest : TimelineRest;
}.
Abbreviation Timelines := (list Timeline) (only parsing).

(** [Entries.ConstructTimeline(description, zeroEntry) Timeline], from
    [dsl/entries.go]; left uninterpreted. *)
Context (Entries_ConstructTimeline :
           Entries → TimelineDescription → Entry → Timeline).

(** The [fmt.Printf] of the group count goes to standard output and is
    not part of the returned values; it is not modelled. *)
Definition ConstructTimelines (g : GroupedEntries)
    (description : TimelineDescription) : result (Timelines * error) :=
  d0 ← index description 0;
  '(firstEntry, found) ← first g (point_Matcher d0);
  if negb found then
    Ok ([], Some ("unable to find first entry to anchor timelines "
                    +:+ fmt_v d0))
  else
    let timelines := [] in
    '(_, timelines) ←
      EachGroup g (λ key entries timelines,
        let timeline :=
          Entries_ConstructTimeline entries description firstEntry in
        let timeline :=
          {| Annotation := key; t_rest := t_rest timeline |} in
        Ok (None, timelines ++ [timeline])) timelines;
    Ok (timelines, None).

(** *** Textual dump

    An [io.Writer] is a sink with a state [W]; [Write] returns the error
    of the write and the sink afterwards.  [fmt_s] is the [%s] rendering
    of a key.  [fmt.Fprintf] formats and performs one [Write]. *)
Section dump.
Context {W : Type}.
Context (Write : W → string → error * W).
Context (fmt_s : K → string).

Definition Fprintf (w : W) (text : string) : error * W := Write w text.

(** [Entries.WriteLagerFormatTo(w) error], from [dsl/entries.go]; left
    uninterpreted. *)
Context (Entries_WriteLagerFormatTo : Entries → W → error * W).

Definition WriteLagerFormatTo (g : GroupedEntries) (w : W)
    : result (error * W) :=
  '(_, w) ←
    EachGroup g (λ key entries w,
      let '(_, w) := Fprintf w (fmt_s key +:+ newline) in
      Ok (Entries_WriteLagerFormatTo entries w)) w;
  Ok (None, w).
End dump.

(** *** Grouping *)

(** Modelled from the spec: [Entries.GroupBy], missing from the sources;
    entries are "grouped via a derived key into [an] OrderedGroupMap",
    one [Append] per entry, in sequence order. *)
Definition GroupBy (e : Entries) (getter : Entry → K)
    : result GroupedEntries :=
  foldl (λ groups entry, g ← groups; Append g (getter entry) entry)
        (Ok NewGroupedEntries) e.

(** *** Pointer receivers

    The methods take a [*GroupedEntries].  To tell the receiver from the
    map that [Filter] allocates, the maps live in a heap, addressed by
    pointers; a visitor is a closure over pointers and runs on the heap.
    [EachGroup] reads [len(g.Keys)], [g.Keys[i]] and [g.Entries[i]]
    through the pointer at every iteration, so its loop has no bound
    known in advance: it takes fuel, and [None] means that the fuel ran
    out. *)
Abbreviation loc := nat (only parsing).
Abbreviation heap := (gmap nat GroupedEntries) (only parsing).

Definition deref (h : heap) (p : loc) : result GroupedEntries :=
  match h !! p with
  | Some g => Ok g
  | None => Panic nil_dereference
  end.

Definition ptr_NewGroupedEntries (h : heap) : loc * heap :=
  let p := fresh (dom h) in
  (p, <[p := NewGroupedEntries]> h).

Definition ptr_AppendEntries (p : loc) (key : K) (entries : Entries)
    (h : heap) : result heap :=
  g ← deref h p;
  g' ← AppendEntries g key entries;
  Ok (<[p := g']> h).

Fixpoint ptr_EachGroup_from (fuel : nat) (p : loc)
    (f : K → Entries → heap → result (error * heap)) (i : nat) (h : heap)
    : option (result (error * heap)) :=
  match fuel with
  | 0 => None
  | S fuel' =>
      match deref h p with
      | Panic e => Some (Panic e)
      | Ok g =>
          if bool_decide (i < length (g_Keys g)) then
            match (key ← index (g_Keys g) i;
                   entries ← index (g_Entries g) i;
                   f key entries h) with
            | Panic e => Some (Panic e)
            | Ok (Some err, h') => Some (Ok (Some err, h'))
            | Ok (None, h') => ptr_EachGroup_from fuel' p f (S i) h'
            end
          else Some (Ok (None, h))
      end
  end.

Definition ptr_EachGroup (fuel : nat) (p : loc)
    (f : K → Entries → heap → result (error * heap)) (h : heap)
    : option (result (error * heap)) :=
  ptr_EachGroup_from fuel p f 0 h.

Definition ptr_Filter (fuel : nat) (p : loc) (matcher : Matcher) (h : heap)
    : option (result (loc * heap)) :=
  let '(filteredGroups, h) := ptr_NewGroupedEntries h in
  r ← ptr_EachGroup fuel p (λ key entries h,
        let filtered := Entries_Filter entries matcher in
        if bool_decide (0 < length filtered) then
          h ← ptr_AppendEntries filteredGroups key filtered h;
          Ok (None, h)
        else Ok (None, h)) h;
  Some ('(_, h) ← r; Ok (filteredGroups, h)).

(** *** Sequences of calls on one map *)
Inductive call : Type :=
  | CallAppend (key : K) (entry : Entry)
  | CallAppendEntries (key : K) (entries : Entries).

Definition call_key (c : call) : K :=
  match c with
  | CallAppend key _ => key
  | CallAppendEntries key _ => key
  end.

Definition call_entries (c : call) : Entries :=
  match c with
  | CallAppend _ entry => [entry]
  | CallAppendEntries _ entries => entries
  end.

Definition do_call (g : GroupedEntries) (c : call) : result GroupedEntries :=
  match c with
  | CallAppend key entry => Append g key entry
  | CallAppendEntries key entries => AppendEntries g key entries
  end.

Fixpoint do_calls (g : GroupedEntries) (cs : list call)
    : result GroupedEntries :=
  match cs with
  | [] => Ok g
  | c :: cs' => g' ← do_call g c; do_calls g' cs'
  end.

(** The keys of a sequence, each at its first occurrence only. *)
Fixpoint first_occurrences (l : list K) : list K :=
  match l with
  | [] => []
  | k :: l' => k :: filter (λ k', k' ≠ k) (first_occurrences l')
  end.

(** All entries handed over under [k], in call order. *)
Definition appended_under (k : K) (cs : list call) : list Entry :=
  cs ≫= λ c, if decide (call_key c = k) then call_entries c else [].

(** *** The map as a sequence of groups *)

(** The groups of a map, as [(key, entries)] pairs in key order. *)
Definition groups (g : GroupedEntries) : list (K * list Entry) :=
  zip (g_Keys g) (g_Entries g).

(** Visiting a sequence of groups in order, up to the first error. *)
Fixpoint visit_in_order {St} (f : visitor St)
    (gs : list (K * list Entry)) (s : St) : result (error * St) :=
  match gs with
  | [] => Ok (None, s)
  | (key, entries) :: rest =>
      '(err, s') ← f key entries s;
      match err with
      | Some _ => Ok (err, s')
      | None => visit_in_order f rest s'
      end
  end.

(** [visited f gs s s']: called on each group of [gs] in turn, starting
    in state [s], the visitor returned a nil error every time and left
    the state [s']. *)
Inductive visited {St} (f : visitor St)
    : list (K * list Entry) → St → St → Prop :=
  | visited_nil s : visited f [] s s
  | visited_cons key entries rest s s1 s2 :
      f key entries s = Ok (None, s1) →
      visited f rest s1 s2 →
      visited f ((key, entries) :: rest) s s2.

(** The groups that [Filter] keeps: every group filtered, the empty
    results left out. *)
Definition filtered_groups (g : GroupedEntries) (matcher : Matcher)
    : list (K * list Entry) :=
  filter (λ p, p.2 ≠ [])
         ((λ p, (p.1, Entries_Filter p.2 matcher)) <$> groups g).

(** The first entry of a group, in the group's own order, that the
    matcher accepts. *)
Definition first_match (matcher : Matcher) (es : list Entry) : option Entry :=
  snd <$> list_find (λ x, matcher x = true) es.

(** The candidates for the anchor: the first match of every group that
    has one, in group order. *)
Definition candidates (g : GroupedEntries) (matcher : Matcher) : list Entry :=
  omap (first_match matcher) (g_Entries g).

(** The timeline of one group, built against [anchor] and annotated with
    the group's key. *)
Definition timeline_of (description : TimelineDescription) (anchor : Entry)
    (p : K * list Entry) : Timeline :=
  {| Annotation := p.1;
     t_rest := t_rest (Entries_ConstructTimeline p.2 description anchor) |}.

(** The maps that can be built: from [NewGroupedEntries], by calls that
    return. *)
Inductive reachable : GroupedEntries → Prop :=
  | reachable_New : reachable NewGroupedEntries
  | reachable_Append g key entry g' :
      reachable g → Append g key entry = Ok g' → reachable g'
  | reachable_AppendEntries g key entries g' :
      reachable g → AppendEntries g key entries = Ok g' → reachable g'
  | reachable_Filter g matcher g' :
      reachable g → Filter g matcher = Ok g' → reachable g'.

(** What is left of a call when only the entries that match are handed
    over: nothing, if none matches. *)
Definition filter_call (matcher : Matcher) (c : call) : option call :=
  match Entries_Filter (call_entries c) matcher with
  | [] => None
  | es => Some (CallAppendEntries (call_key c) es)
  end.

(** What the visitor of [WriteLagerFormatTo] does for one group: the key
    line, whose error is dropped, then the entries of the group. *)
Definition dump_group {W} (Write : W → string → error * W)
    (fmt_s : K → string) (Entries_WriteLagerFormatTo : Entries → W → error * W)
    (key : K) (entries : Entries) (w : W) : error * W :=
  Entries_WriteLagerFormatTo entries
    (Fprintf Write w (fmt_s key +:+ newline)).2.

(** ** Facts about the operations *)

Lemma wf_NewGroupedEntries : wf NewGroupedEntries.
Proof.
  split; simpl; [done | constructor |].
  exists ∅. split; [done |]. intros k i.
  rewrite lookup_empty, lookup_nil. by split.
Qed.

Lemma wf_lookup_Some g m k i :
  wf g → g_lookup g = Some m → m !! k = Some i → g_Keys g !! i = Some k.
Proof.
  intros [_ _ (m' & Hm' & Hiff)] Hm Hk.
  rewrite Hm in Hm'. injection Hm' as <-. by apply Hiff.
Qed.

Lemma wf_lookup_None g m k :
  wf g → g_lookup g = Some m → k ∉ g_Keys g → m !! k = None.
Proof.
  intros [_ _ (m' & Hm' & Hiff)] Hm Hk.
  rewrite Hm in Hm'. injection Hm' as <-.
  destruct (m !! k) as [i|] eqn:E; [| done].
  apply Hiff in E. exfalso. apply Hk. by eapply list_elem_of_lookup_2.
Qed.

Lemma wf_map_read g k i :
  wf g → g_Keys g !! i = Some k → map_read (g_lookup g) k = (i, true).
Proof.
  intros [_ _ (m & Hm & Hiff)] Hk. unfold map_read.
  rewrite Hm. apply Hiff in Hk. by rewrite Hk.
Qed.

Lemma wf_map_read_None g k :
  wf g → k ∉ g_Keys g → map_read (g_lookup g) k = (0, false).
Proof.
  intros Hwf Hk. destruct (wf_lookup _ Hwf) as (m & Hm & _).
  unfold map_read. rewrite Hm. by rewrite (wf_lookup_None g m k).
Qed.

(** A key already in the map: the entries go to the end of its group. *)
Lemma AppendEntries_seen g key entries i old :
  wf g → g_Keys g !! i = Some key → g_Entries g !! i = Some old →
  AppendEntries g key entries =
    Ok {| g_Keys := g_Keys g;
          g_Entries := <[i := old ++ entries]> (g_Entries g);
          g_lookup := g_lookup g |}.
Proof.
  intros Hwf Hk Ho. unfold AppendEntries.
  rewrite (wf_map_read g key i Hwf Hk). simpl.
  rewrite (wf_map_read g key i Hwf Hk). simpl.
  unfold index. by rewrite Ho.
Qed.

(** A new key: it goes to the end of [Keys], with the entries as its
    group. *)
Lemma AppendEntries_unseen g key entries m :
  wf g → g_lookup g = Some m → key ∉ g_Keys g →
  AppendEntries g key entries =
    Ok {| g_Keys := g_Keys g ++ [key];
          g_Entries := g_Entries g ++ [entries];
          g_lookup := Some (<[key := length (g_Keys g)]> m) |}.
Proof.
  intros Hwf Hm Hk. unfold AppendEntries.
  rewrite (wf_map_read_None g key Hwf Hk). simpl.
  rewrite Hm. simpl. rewrite lookup_insert_eq. simpl.
  rewrite length_app. simpl.
  replace (length (g_Keys g) + 1 - 1) with (length (g_Entries g) + 0)
    by (rewrite (wf_length _ Hwf); lia).
  unfold index. rewrite lookup_app_r by lia.
  replace (length (g_Entries g) + 0 - length (g_Entries g)) with 0 by lia.
  simpl. rewrite insert_app_r. simpl.
  by rewrite Nat.add_0_r, (wf_length _ Hwf).
Qed.

Lemma wf_seen g i new :
  wf g → i < length (g_Keys g) →
  wf {| g_Keys := g_Keys g;
        g_Entries := <[i := new]> (g_Entries g);
        g_lookup := g_lookup g |}.
Proof.
  intros [Hlen Hnd Hlk] Hi. split; simpl; [| done | done].
  by rewrite length_insert.
Qed.

Lemma wf_unseen g key entries m :
  wf g → g_lookup g = Some m → key ∉ g_Keys g →
  wf {| g_Keys := g_Keys g ++ [key];
        g_Entries := g_Entries g ++ [entries];
        g_lookup := Some (<[key := length (g_Keys g)]> m) |}.
Proof.
  intros Hwf Hm Hk. split; simpl.
  - rewrite !length_app. simpl. by rewrite (wf_length _ Hwf).
  - apply NoDup_app. split; [apply (wf_NoDup _ Hwf) |].
    split; [| apply NoDup_singleton].
    intros x Hx Hx'. apply list_elem_of_singleton in Hx'. by subst.
  - eexists. split; [done |]. intros k i.
    destruct (decide (k = key)) as [-> | Hne].
    + rewrite lookup_insert_eq. split.
      * intros [= <-]. by rewrite lookup_app_r, Nat.sub_diag.
      * intros Hi. f_equal.
        destruct (decide (i < length (g_Keys g))) as [Hlt | Hge].
        -- rewrite lookup_app_l in Hi by done.
           exfalso. apply Hk. by eapply list_elem_of_lookup_2.
        -- apply lookup_lt_Some in Hi. rewrite length_app in Hi.
           simpl in Hi. lia.
    + rewrite lookup_insert_ne by done. split.
      * intros Hi. pose proof (wf_lookup_Some g m k i Hwf Hm Hi) as Hki.
        by rewrite lookup_app_l by (by eapply lookup_lt_Some).
      * intros Hi.
        destruct (decide (i < length (g_Keys g))) as [Hlt | Hge].
        -- rewrite lookup_app_l in Hi by done.
           destruct (wf_lookup _ Hwf) as (m' & Hm' & Hiff).
           rewrite Hm in Hm'. injection Hm' as <-. by apply Hiff.
        -- rewrite lookup_app_r in Hi by lia.
           apply list_lookup_singleton_Some in Hi as [_ ?]. congruence.
Qed.

Lemma AppendEntries_wf g key entries :
  wf g → ∃ g', AppendEntries g key entries = Ok g' ∧ wf g'.
Proof.
  intros Hwf. destruct (decide (key ∈ g_Keys g)) as [Hin | Hnin].
  - apply list_elem_of_lookup_1 in Hin as [i Hi].
    pose proof (lookup_lt_Some _ _ _ Hi) as Hlt.
    destruct (lookup_lt_is_Some_2 (g_Entries g) i) as [old Ho];
      [by rewrite <- (wf_length _ Hwf) |].
    eexists. split; [by eapply AppendEntries_seen |]. by apply wf_seen.
  - destruct (wf_lookup _ Hwf) as (m & Hm & _).
    eexists. split; [by eapply AppendEntries_unseen |]. by apply wf_unseen.
Qed.

(** *** Sequences of calls *)

Lemma elem_of_first_occurrences k l : k ∈ first_occurrences l ↔ k ∈ l.
Proof.
  revert k. induction l as [| a l IH]; intros k; simpl; [done |].
  rewrite !elem_of_cons, list_elem_of_filter, IH. split.
  - intros [-> | [_ Hk]]; [by left | by right].
  - intros [-> | Hk]; [by left |].
    destruct (decide (k = a)) as [-> | Hne]; [by left | by right].
Qed.

Lemma NoDup_first_occurrences l : NoDup (first_occurrences l).
Proof.
  induction l as [| a l IH]; simpl; [constructor |].
  constructor; [| by apply NoDup_filter].
  rewrite list_elem_of_filter. intros [Hne _]. by apply Hne.
Qed.

Lemma first_occurrences_snoc l k :
  first_occurrences (l ++ [k]) =
    if decide (k ∈ l) then first_occurrences l
    else first_occurrences l ++ [k].
Proof.
  induction l as [| a l IH]; simpl.
  - done.
  - rewrite IH. destruct (decide (k = a)) as [-> | Hne].
    + rewrite (decide_True (P := a ∈ a :: l)) by (by left).
      destruct (decide (a ∈ l)); [done |].
      rewrite filter_app, filter_cons_False, filter_nil
        by (intros Hne; by apply Hne).
      by rewrite app_nil_r.
    + destruct (decide (k ∈ l)) as [Hin | Hnin].
      * by rewrite decide_True by (by right).
      * rewrite decide_False by (by apply not_elem_of_cons).
        rewrite filter_app, filter_cons_True, filter_nil by done.
        done.
Qed.

Lemma first_occurrences_NoDup l : NoDup l → first_occurrences l = l.
Proof.
  induction 1 as [| a l Hnin Hnd IH]; simpl; [done |].
  rewrite IH. f_equal. clear IH Hnd.
  induction l as [| b l IH]; [done |].
  rewrite not_elem_of_cons in Hnin. destruct Hnin as [Hab Hnin].
  rewrite filter_cons_True by done. f_equal. by apply IH.
Qed.

Lemma do_calls_snoc g cs c :
  do_calls g (cs ++ [c]) = g' ← do_calls g cs; do_call g' c.
Proof.
  revert g. induction cs as [| c' cs IH]; intros g; simpl.
  - by destruct (do_call g c).
  - destruct (do_call g c') as [g' | p]; simpl; [apply IH | done].
Qed.

Lemma do_call_unfold g c :
  do_call g c = AppendEntries g (call_key c) (call_entries c).
Proof. by destruct c. Qed.

Lemma appended_under_snoc k cs c :
  appended_under k (cs ++ [c]) =
    appended_under k cs ++
      (if decide (call_key c = k) then call_entries c else []).
Proof.
  unfold appended_under. rewrite bind_app. simpl. by rewrite app_nil_r.
Qed.

Lemma appended_under_unseen k cs :
  k ∉ call_key <$> cs → appended_under k cs = [].
Proof.
  unfold appended_under. induction cs as [| c cs IH]; [done |].
  rewrite fmap_cons, not_elem_of_cons. intros [Hne Hnin].
  rewrite bind_cons, decide_False by done. by apply IH.
Qed.

(** What a map holds after a sequence of calls on a new map. *)
Lemma do_calls_spec cs :
  ∃ g, do_calls NewGroupedEntries cs = Ok g ∧ wf g ∧
       g_Keys g = first_occurrences (call_key <$> cs) ∧
       g_Entries g = (λ k, appended_under k cs) <$> g_Keys g.
Proof.
  induction cs as [| c cs IH] using rev_ind.
  - exists NewGroupedEntries. by split; [| split; [apply wf_NewGroupedEntries |]].
  - destruct IH as (g & Hrun & Hwf & Hkeys & Hent).
    rewrite do_calls_snoc, Hrun. simpl. rewrite do_call_unfold.
    rewrite fmap_app. change (call_key <$> [c]) with [call_key c].
    rewrite first_occurrences_snoc.
    destruct (decide (call_key c ∈ call_key <$> cs)) as [Hin | Hnin].
    + assert (Hin' : call_key c ∈ g_Keys g)
        by (by rewrite Hkeys, elem_of_first_occurrences).
      apply list_elem_of_lookup_1 in Hin' as [i Hi].
      assert (Ho : g_Entries g !! i = Some (appended_under (call_key c) cs))
        by (by rewrite Hent, list_lookup_fmap, Hi).
      eexists. split; [by eapply AppendEntries_seen |].
      split; [apply wf_seen; [done | by eapply lookup_lt_Some] |].
      simpl. split; [done |].
      apply list_eq. intros j. rewrite list_lookup_fmap.
      destruct (decide (j = i)) as [-> | Hne].
      * rewrite list_lookup_insert_eq by (by eapply lookup_lt_Some).
        rewrite Hi. simpl. rewrite appended_under_snoc.
        by rewrite decide_True.
      * rewrite list_lookup_insert_ne by done.
        rewrite Hent, list_lookup_fmap.
        destruct (g_Keys g !! j) as [k |] eqn:Hj; [| done]. simpl.
        rewrite appended_under_snoc, decide_False, app_nil_r; [done |].
        intros Heq. apply Hne. rewrite <- Heq in Hj.
        by eapply NoDup_lookup; [apply (wf_NoDup _ Hwf) | |].
    + assert (Hnin' : call_key c ∉ g_Keys g)
        by (by rewrite Hkeys, elem_of_first_occurrences).
      destruct (wf_lookup _ Hwf) as (m & Hm & _).
      eexists. split; [by eapply AppendEntries_unseen |].
      split; [by apply wf_unseen |].
      simpl. split; [by rewrite Hkeys |].
      rewrite fmap_app. simpl. f_equal.
      * rewrite Hent at 1. apply list_fmap_ext. intros j k Hk.
        rewrite appended_under_snoc, decide_False, app_nil_r; [done |].
        intros <-. apply Hnin'. by eapply list_elem_of_lookup_2.
      * rewrite appended_under_snoc, decide_True by done.
        by rewrite appended_under_unseen.
Qed.

(** *** Iteration *)

Lemma groups_keys g :
  length (g_Keys g) ≤ length (g_Entries g) → (groups g).*1 = g_Keys g.
Proof. apply fst_zip. Qed.

Lemma groups_entries g :
  length (g_Entries g) ≤ length (g_Keys g) → (groups g).*2 = g_Entries g.
Proof. apply snd_zip. Qed.

Lemma EachGroup_from_visit {St} g (f : visitor St) n i s :
  length (g_Keys g) ≤ length (g_Entries g) →
  i + n = length (g_Keys g) →
  EachGroup_from g f n i s = visit_in_order f (drop i (groups g)) s.
Proof.
  intros Hlen. revert i s. induction n as [| n IH]; intros i s Hi.
  - rewrite drop_ge; [done |]. unfold groups. rewrite length_zip. lia.
  - destruct (lookup_lt_is_Some_2 (g_Keys g) i) as [key Hk]; [lia |].
    destruct (lookup_lt_is_Some_2 (g_Entries g) i) as [es He]; [lia |].
    rewrite (drop_S _ (key, es)) by (by apply lookup_zip_Some).
    simpl. unfold index. rewrite Hk, He. simpl.
    destruct (f key es s) as [[[e |] s'] | p]; simpl; [done | | done].
    apply IH. lia.
Qed.

Lemma EachGroup_visit {St} g (f : visitor St) s :
  length (g_Keys g) ≤ length (g_Entries g) →
  EachGroup g f s = visit_in_order f (groups g) s.
Proof. intros Hlen. unfold EachGroup. by rewrite EachGroup_from_visit. Qed.

Lemma visit_in_order_stop {St} (f : visitor St) pre key entries post
    s s1 s2 e :
  visited f pre s s1 → f key entries s1 = Ok (Some e, s2) →
  visit_in_order f (pre ++ (key, entries) :: post) s = Ok (Some e, s2).
Proof.
  induction 1 as [s | k es rest s s1 s' Hf Hv IH]; intros Hstop; simpl.
  - by rewrite Hstop.
  - rewrite Hf. simpl. by apply IH.
Qed.

Lemma visit_in_order_all {St} (f : visitor St) gs s s' :
  visited f gs s s' → visit_in_order f gs s = Ok (None, s').
Proof.
  induction 1 as [s | k es rest s s1 s' Hf Hv IH]; simpl; [done |].
  by rewrite Hf.
Qed.

Lemma visit_in_order_snoc {St} (f : visitor St) gs key entries s :
  visit_in_order f (gs ++ [(key, entries)]) s =
    '(err, s') ← visit_in_order f gs s;
    match err with
    | Some _ => Ok (err, s')
    | None => f key entries s'
    end.
Proof.
  revert s. induction gs as [| [k es] gs IH]; intros s; simpl.
  - by destruct (f key entries s) as [[[e |] s'] | p].
  - destruct (f k es s) as [[[e |] s'] | p]; simpl; [done | apply IH | done].
Qed.

(** *** Filter *)

Lemma Filter_calls g matcher :
  length (g_Keys g) ≤ length (g_Entries g) →
  Filter g matcher =
    do_calls NewGroupedEntries
      ((λ p, CallAppendEntries p.1 p.2) <$> filtered_groups g matcher).
Proof.
  intros Hlen. unfold Filter, filtered_groups.
  rewrite EachGroup_visit by done.
  generalize NewGroupedEntries. induction (groups g) as [| [k es] gs IH];
    intros fg; [done |].
  rewrite fmap_cons, filter_cons. simpl.
  destruct (Entries_Filter es matcher) as [| x filtered] eqn:Hf.
  - rewrite bool_decide_false by (simpl; lia). simpl. apply IH.
  - rewrite bool_decide_true by (simpl; lia). simpl.
    destruct (AppendEntries fg k (x :: filtered)) as [fg' | p]; simpl;
      [apply IH | done].
Qed.

Lemma appended_under_NoDup cs :
  NoDup (call_key <$> cs) →
  (λ k, appended_under k cs) <$> (call_key <$> cs) = call_entries <$> cs.
Proof.
  induction cs as [| c cs IH]; [done |].
  rewrite !fmap_cons, NoDup_cons. intros [Hnin Hnd]. f_equal.
  - unfold appended_under. rewrite bind_cons, decide_True by done.
    fold (appended_under (call_key c) cs).
    by rewrite appended_under_unseen, app_nil_r.
  - rewrite <- IH by done. apply list_fmap_ext. intros i k Hk.
    unfold appended_under. rewrite bind_cons, decide_False; [done |].
    intros Heq. apply Hnin. rewrite Heq. by eapply list_elem_of_lookup_2.
Qed.

Lemma filtered_groups_NoDup g matcher :
  wf g → NoDup (filtered_groups g matcher).*1.
Proof.
  intros Hwf. unfold filtered_groups.
  eapply sublist_NoDup; [| apply fmap_sublist, sublist_filter].
  rewrite <- list_fmap_compose.
  erewrite (list_fmap_ext _ fst); [| by intros i [k es] _].
  rewrite groups_keys by (by rewrite (wf_length _ Hwf)).
  apply (wf_NoDup _ Hwf).
Qed.

(** What [Filter] returns on a well-formed map. *)
Lemma Filter_spec g matcher :
  wf g →
  ∃ g', Filter g matcher = Ok g' ∧ wf g' ∧
        g_Keys g' = (filtered_groups g matcher).*1 ∧
        g_Entries g' = (filtered_groups g matcher).*2.
Proof.
  intros Hwf. rewrite Filter_calls by (by rewrite (wf_length _ Hwf)).
  set (cs := (λ p, CallAppendEntries p.1 p.2) <$> filtered_groups g matcher).
  assert (Hk : call_key <$> cs = (filtered_groups g matcher).*1).
  { unfold cs. rewrite <- list_fmap_compose. done. }
  assert (He : call_entries <$> cs = (filtered_groups g matcher).*2).
  { unfold cs. rewrite <- list_fmap_compose. done. }
  destruct (do_calls_spec cs) as (g' & Hrun & Hwf' & Hkeys & Hent).
  exists g'. split; [done |]. split; [done |].
  rewrite Hk in Hkeys.
  rewrite first_occurrences_NoDup in Hkeys
    by (by apply filtered_groups_NoDup).
  split; [done |].
  rewrite Hent, Hkeys, <- Hk, appended_under_NoDup; [done |].
  rewrite Hk. by apply filtered_groups_NoDup.
Qed.

(** *** Anchor selection *)

Lemma Entries_First_first_match es matcher :
  Entries_First es matcher =
    match first_match matcher es with
    | Some x => (x, true)
    | None => (zeroEntry, false)
    end.
Proof.
  unfold first_match. induction es as [| x es IH]; [done |].
  cbn. destruct (matcher x) eqn:Hx.
  - by rewrite decide_True.
  - rewrite decide_False by done. rewrite IH.
    by destruct (list_find _ es) as [[i y] |].
Qed.

Lemma first_match_Some matcher es x :
  first_match matcher es = Some x ↔
  ∃ i, es !! i = Some x ∧ matcher x = true ∧
       ∀ j y, es !! j = Some y → j < i → matcher y = false.
Proof.
  unfold first_match. rewrite fmap_Some. split.
  - intros ([i y] & Hfind & ->). apply list_find_Some in Hfind.
    destruct Hfind as (Hi & Hy & Hbefore). exists i.
    split; [done |]. split; [done |]. intros j z Hj Hlt.
    apply not_true_is_false. by eapply Hbefore.
  - intros (i & Hi & Hx & Hbefore). exists (i, x). split; [| done].
    apply list_find_Some. split; [done |]. split; [done |].
    intros j z Hj Hlt. rewrite (Hbefore j z Hj Hlt). done.
Qed.

Lemma first_match_None matcher es :
  first_match matcher es = None ↔ ∀ x, x ∈ es → matcher x = false.
Proof.
  unfold first_match. rewrite fmap_None, list_find_None, Forall_forall.
  split; intros Hall x Hx.
  - apply not_true_is_false. by apply Hall.
  - by rewrite (Hall x Hx).
Qed.

Lemma foldl_firsts matcher (l : list (list Entry)) (acc : list Entry) :
  foldl (λ firsts entries,
           let '(fst, found) := Entries_First entries matcher in
           if found then firsts ++ [fst] else firsts)
        acc l = acc ++ omap (first_match matcher) l.
Proof.
  revert acc. induction l as [| es l IH]; intros acc; simpl.
  - by rewrite app_nil_r.
  - rewrite Entries_First_first_match.
    destruct (first_match matcher es) as [x |]; simpl; rewrite IH.
    + by rewrite <- app_assoc.
    + done.
Qed.

Lemma first_unfold g matcher :
  first g matcher =
    if bool_decide (length (candidates g matcher) = 0)
    then Ok (zeroEntry, false)
    else e ← index (sort_Sort (candidates g matcher)) 0; Ok (e, true).
Proof. unfold first. by rewrite foldl_firsts. Qed.

Lemma first_not_found g matcher :
  (∀ es e, es ∈ g_Entries g → e ∈ es → matcher e = false) →
  first g matcher = Ok (zeroEntry, false).
Proof.
  intros Hnone. rewrite first_unfold.
  assert (Hc : candidates g matcher = []).
  { unfold candidates. induction (g_Entries g) as [| es l IH]; [done |].
    simpl. rewrite (proj2 (first_match_None matcher es)).
    - apply IH. intros es' e Hes'. apply Hnone. by right.
    - intros e. apply Hnone. by left. }
  by rewrite Hc.
Qed.

Lemma candidates_nonempty g matcher es e :
  es ∈ g_Entries g → e ∈ es → matcher e = true →
  candidates g matcher ≠ [].
Proof.
  intros Hes He Hm Hnil.
  destruct (first_match matcher es) as [x |] eqn:Hx.
  - assert (x ∈ candidates g matcher) as Hin
      by (apply list_elem_of_omap; eauto).
    rewrite Hnil in Hin. by apply not_elem_of_nil in Hin.
  - rewrite first_match_None in Hx. specialize (Hx e He). congruence.
Qed.

(** *** Timelines *)

Lemma visit_timelines description anchor gs (timelines : list Timeline) :
  visit_in_order
    (λ key entries timelines,
       let timeline :=
         Entries_ConstructTimeline entries description anchor in
       let timeline :=
         {| Annotation := key; t_rest := t_rest timeline |} in
       Ok (None, timelines ++ [timeline])) gs timelines =
  Ok (None, timelines ++ (timeline_of description anchor <$> gs)).
Proof.
  revert timelines. induction gs as [| [k es] gs IH]; intros tls; simpl.
  - by rewrite app_nil_r.
  - rewrite IH. by rewrite <- app_assoc.
Qed.

Lemma ConstructTimelines_found g description d0 anchor :
  length (g_Keys g) ≤ length (g_Entries g) →
  description !! 0 = Some d0 →
  first g (point_Matcher d0) = Ok (anchor, true) →
  ConstructTimelines g description =
    Ok (timeline_of description anchor <$> groups g, None).
Proof.
  intros Hlen Hd Hfirst. unfold ConstructTimelines, index.
  rewrite Hd. simpl. rewrite Hfirst. simpl.
  rewrite EachGroup_visit by done. by rewrite visit_timelines.
Qed.

Lemma Annotation_timeline_of description anchor gs :
  Annotation <$> (timeline_of description anchor <$> gs) = gs.*1.
Proof. by rewrite <- list_fmap_compose. Qed.

(** *** Filter through pointers *)

(** The loop through a pointer agrees with [EachGroup_from] on the
    receiver's contents when the visitor leaves the receiver alone: the
    heaps it runs on are the images [emb s] of its state, each with [g] at
    [p], and on them the heap visitor [F] does what [f] does on states. *)
Lemma ptr_EachGroup_from_refines {St} (emb : St → heap)
    (F : K → Entries → heap → result (error * heap)) (f : visitor St)
    fuel p g n i s :
  (∀ s, emb s !! p = Some g) →
  (∀ key entries s,
     F key entries (emb s) =
       '(err, s') ← f key entries s; Ok (err, emb s')) →
  length (g_Keys g) ≤ length (g_Entries g) →
  i + n = length (g_Keys g) → n < fuel →
  ptr_EachGroup_from fuel p F i (emb s) =
    Some ('(err, s') ← EachGroup_from g f n i s; Ok (err, emb s')).
Proof.
  intros Hp Hsim Hlen. revert fuel i s.
  induction n as [| n IH]; intros fuel i s Hi Hfuel;
    (destruct fuel as [| fuel]; [lia |]); simpl;
    unfold deref; rewrite Hp.
  - by rewrite bool_decide_false by lia.
  - rewrite bool_decide_true by lia.
    destruct (lookup_lt_is_Some_2 (g_Keys g) i) as [key Hk]; [lia |].
    destruct (lookup_lt_is_Some_2 (g_Entries g) i) as [es He]; [lia |].
    unfold index. rewrite Hk, He. simpl. rewrite Hsim.
    destruct (f key es s) as [[[e |] s'] | e]; simpl; [done | | done].
    apply IH; lia.
Qed.

Lemma ptr_Filter_refines fuel p matcher (h : heap) g :
  h !! p = Some g →
  length (g_Keys g) ≤ length (g_Entries g) →
  length (g_Keys g) < fuel →
  ptr_Filter fuel p matcher h =
    Some (g' ← Filter g matcher;
          Ok (fresh (dom h), <[fresh (dom h) := g']> h)).
Proof.
  intros Hp Hlen Hfuel. unfold ptr_Filter, ptr_NewGroupedEntries.
  unfold ptr_EachGroup. set (q := fresh (dom h)).
  assert (Hpq : q ≠ p).
  { intros Heq. pose proof (is_fresh (dom h)) as Hfresh.
    apply not_elem_of_dom in Hfresh. fold q in Hfresh. congruence. }
  rewrite (ptr_EachGroup_from_refines (λ fg, <[q := fg]> h) _
             (λ key entries filteredGroups,
                let filtered := Entries_Filter entries matcher in
                if bool_decide (0 < length filtered) then
                  filteredGroups ← AppendEntries filteredGroups key filtered;
                  Ok (None, filteredGroups)
                else Ok (None, filteredGroups))
             fuel p g (length (g_Keys g)) 0 NewGroupedEntries);
    [| | | done ..].
  - simpl. unfold Filter, EachGroup.
    by destruct (EachGroup_from _ _ _ _ _) as [[err fg] | e].
  - intros fg. by rewrite lookup_insert_ne.
  - intros key entries fg. simpl.
    destruct (bool_decide (0 < length (Entries_Filter entries matcher)));
      [| done].
    unfold ptr_AppendEntries, deref. rewrite lookup_insert_eq. simpl.
    destruct (AppendEntries fg key (Entries_Filter entries matcher))
      as [fg' | e]; simpl; [| done].
    by rewrite insert_insert_eq.
Qed.

(** *** The dump *)

(** Whatever the sink and the visitor do, the error that
    [WriteLagerFormatTo] returns is nil. *)
Lemma WriteLagerFormatTo_nil {W} (Write : W → string → error * W) fmt_s
    Entries_WriteLagerFormatTo g w r :
  WriteLagerFormatTo Write fmt_s Entries_WriteLagerFormatTo g w = Ok r →
  r.1 = None.
Proof.
  unfold WriteLagerFormatTo.
  destruct (EachGroup _ _ _) as [[err w'] | e]; simpl; [| done].
  by intros [= <-].
Qed.

Lemma do_calls_wf cs g : do_calls NewGroupedEntries cs = Ok g → wf g.
Proof.
  intros Hrun. destruct (do_calls_spec cs) as (g' & Hrun' & Hwf & _).
  congruence.
Qed.

Lemma do_calls_reachable cs g :
  do_calls NewGroupedEntries cs = Ok g → reachable g.
Proof.
  revert g. induction cs as [| c cs IH] using rev_ind; intros g.
  - intros [= <-]. constructor.
  - rewrite do_calls_snoc.
    destruct (do_calls NewGroupedEntries cs) as [g' | e]; [| done].
    simpl. specialize (IH g' eq_refl). destruct c as [key entry | key entries].
    + by apply reachable_Append.
    + by apply reachable_AppendEntries.
Qed.

(** *** Lookup *)

Lemma Lookup_seen g key i es :
  wf g → g_Keys g !! i = Some key → g_Entries g !! i = Some es →
  Lookup g key = Ok (es, true).
Proof.
  intros Hwf Hk He. unfold Lookup. rewrite (wf_map_read g key i Hwf Hk).
  simpl. unfold index. by rewrite He.
Qed.

Lemma Lookup_unseen g key :
  wf g → key ∉ g_Keys g → Lookup g key = Ok ([], false).
Proof.
  intros Hwf Hk. unfold Lookup. by rewrite (wf_map_read_None g key Hwf Hk).
Qed.

Lemma reachable_wf g : reachable g → wf g.
Proof.
  induction 1 as [| g key entry g' _ IH Hcall | g key entries g' _ IH Hcall
                  | g matcher g' _ IH Hcall].
  - apply wf_NewGroupedEntries.
  - destruct (AppendEntries_wf g key [entry] IH) as (g'' & Heq & Hwf).
    unfold Append in Hcall. congruence.
  - destruct (AppendEntries_wf g key entries IH) as (g'' & Heq & Hwf).
    congruence.
  - destruct (Filter_spec g matcher IH) as (g'' & Heq & Hwf & _).
    congruence.
Qed.

Lemma filtered_groups_nonempty g matcher :
  [] ∉ (filtered_groups g matcher).*2.
Proof.
  intros Hin. apply list_elem_of_fmap in Hin as ([k es] & Hes & Hin).
  simpl in Hes. subst es. unfold filtered_groups in Hin.
  apply list_elem_of_filter in Hin as [Hne _]. by apply Hne.
Qed.

(** *** Grouping, then filtering *)

Lemma GroupBy_calls e getter :
  GroupBy e getter =
    do_calls NewGroupedEntries ((λ x, CallAppend (getter x) x) <$> e).
Proof.
  unfold GroupBy.
  assert (Hgen : ∀ r : result GroupedEntries,
    foldl (λ groups entry, g ← groups; Append g (getter entry) entry) r e =
    g ← r; do_calls g ((λ x, CallAppend (getter x) x) <$> e)).
  { induction e as [| x e IH]; intros r; simpl.
    - by destruct r.
    - rewrite IH. by destruct r. }
  apply Hgen.
Qed.

Lemma appended_under_GroupBy k getter (e : list Entry) :
  appended_under k ((λ x, CallAppend (getter x) x) <$> e) =
    filter (λ x, getter x = k) e.
Proof.
  unfold appended_under. induction e as [| x e IH]; [done |].
  rewrite fmap_cons, bind_cons, filter_cons, IH. simpl.
  by destruct (decide (getter x = k)).
Qed.

Lemma zip_fmap_self {A B} (f : A → B) (l : list A) :
  zip l (f <$> l) = (λ x, (x, f x)) <$> l.
Proof. induction l as [| x l IH]; [done |]. cbn. by f_equal. Qed.

(** What [GroupBy] returns: the keys at their first occurrence, each with
    the entries of that key in sequence order. *)
Lemma GroupBy_spec e getter :
  ∃ g, GroupBy e getter = Ok g ∧ wf g ∧
       g_Keys g = first_occurrences (getter <$> e) ∧
       groups g = (λ k, (k, filter (λ x, getter x = k) e)) <$> g_Keys g.
Proof.
  rewrite GroupBy_calls.
  destruct (do_calls_spec ((λ x, CallAppend (getter x) x) <$> e))
    as (g & Hrun & Hwf & Hkeys & Hent).
  exists g. split; [done |]. split; [done |].
  rewrite <- list_fmap_compose in Hkeys. split; [done |].
  unfold groups. rewrite Hent, zip_fmap_self.
  apply list_fmap_ext. intros i k _. by rewrite appended_under_GroupBy.
Qed.

Lemma Lookup_groups g key es :
  wf g → (key, es) ∈ groups g → Lookup g key = Ok (es, true).
Proof.
  intros Hwf [i Hi]%list_elem_of_lookup_1.
  apply lookup_zip_Some in Hi as [Hk He]. by eapply Lookup_seen.
Qed.

Lemma filter_filter_comm {A} (P Q : A → Prop)
    `{!∀ x, Decision (P x), !∀ x, Decision (Q x)} (l : list A) :
  filter P (filter Q l) = filter Q (filter P l).
Proof.
  rewrite !list_filter_filter. apply list_filter_iff.
  intros x. split; intros [HP HQ]; by split.
Qed.

Lemma filter_nonempty {A} (P : A → Prop) `{!∀ x, Decision (P x)} (l : list A) :
  filter P l ≠ [] ↔ ∃ x, x ∈ l ∧ P x.
Proof.
  split.
  - destruct (filter P l) as [| x l'] eqn:Hf; [done |]. intros _.
    assert (Hx : x ∈ filter P l) by (rewrite Hf; by left).
    apply list_elem_of_filter in Hx as [HP Hx]. by exists x.
  - intros (x & Hx & HP) Hnil.
    assert (Hin : x ∈ filter P l) by (by apply list_elem_of_filter).
    rewrite Hnil in Hin. by apply elem_of_nil in Hin.
Qed.

(** Filtering and grouping commute up to the order of the keys: either way
    the same keys are present, and [Lookup] returns the same group for
    every key. *)
Lemma Filter_GroupBy_same_groups e getter matcher :
  ∃ g1 g2,
    GroupBy (Entries_Filter e matcher) getter = Ok g1 ∧
    (g ← GroupBy e getter; Filter g matcher) = Ok g2 ∧
    g_Keys g1 ≡ₚ g_Keys g2 ∧
    ∀ k, Lookup g1 k = Lookup g2 k.
Proof.
  destruct (GroupBy_spec (Entries_Filter e matcher) getter)
    as (g1 & Hrun1 & Hwf1 & Hkeys1 & Hgroups1).
  destruct (GroupBy_spec e getter) as (g & Hrun & Hwf & Hkeys & Hgroups).
  destruct (Filter_spec g matcher Hwf) as (g2 & Hrun2 & Hwf2 & Hkeys2 & Hent2).
  exists g1, g2. split; [done |]. split; [by rewrite Hrun |].
  assert (Hgroups2 : groups g2 = filtered_groups g matcher)
    by (unfold groups; by rewrite Hkeys2, Hent2, zip_fst_snd).
  assert (Hin2 : ∀ k es, (k, es) ∈ groups g2 ↔
            es = filter (λ x, getter x = k) (Entries_Filter e matcher) ∧
            es ≠ []).
  { intros k es. rewrite Hgroups2. unfold filtered_groups.
    rewrite list_elem_of_filter, Hgroups, <- list_fmap_compose,
      list_elem_of_fmap. simpl. split.
    - intros (Hne & k' & [= -> ->] & Hk'). split; [| done].
      apply filter_filter_comm.
    - intros [-> Hne]. split; [done |]. exists k. split.
      + f_equal. apply filter_filter_comm.
      + rewrite Hkeys, elem_of_first_occurrences.
        apply filter_nonempty in Hne as (x & Hx & <-).
        apply list_elem_of_fmap. exists x. split; [done |].
        unfold Entries_Filter in Hx.
        by apply list_elem_of_filter in Hx as [_ Hx]. }
  assert (Hin1 : ∀ k, k ∈ g_Keys g1 ↔
            filter (λ x, getter x = k) (Entries_Filter e matcher) ≠ []).
  { intros k. rewrite Hkeys1, elem_of_first_occurrences, list_elem_of_fmap,
      filter_nonempty. split; intros (x & ? & ?); by exists x. }
  assert (Hkeys12 : ∀ k, k ∈ g_Keys g1 ↔ k ∈ g_Keys g2).
  { intros k. rewrite Hin1.
    rewrite <- (groups_keys g2) by (by rewrite (wf_length _ Hwf2)).
    rewrite list_elem_of_fmap. split.
    - intros Hne. eexists (k, _). split; [done |]. by apply Hin2.
    - intros ([k' es] & -> & Hin). by apply Hin2 in Hin as [-> Hne]. }
  split.
  - apply NoDup_Permutation; [apply (wf_NoDup _ Hwf1)
                             | apply (wf_NoDup _ Hwf2) | done].
  - intros k. destruct (decide (k ∈ g_Keys g1)) as [Hk | Hk].
    + assert (Hk1 : (k, filter (λ x, getter x = k)
                            (Entries_Filter e matcher)) ∈ groups g1).
      { rewrite Hgroups1. apply list_elem_of_fmap. by exists k. }
      rewrite (Lookup_groups g1 k _ Hwf1 Hk1).
      symmetry. apply Lookup_groups; [done |]. apply Hin2.
      split; [done |]. by apply Hin1.
    + rewrite (Lookup_unseen g1 k Hwf1 Hk). symmetry.
      apply Lookup_unseen; [done |]. by rewrite <- Hkeys12.
Qed.

(** ** The properties of the specification *)

(** C6. After any finite sequence of [Append]/[AppendEntries] calls on a
    new map, [Keys] holds each distinct key once, in the order of the
    keys' first calls, and the group stored for a key is the
    concatenation, in call order, of everything appended under that key;
    [Lookup] returns that group. *)
Theorem calls_keep_first_insertion_order (cs : list call) :
  ∃ g, do_calls NewGroupedEntries cs = Ok g ∧
       g_Keys g = first_occurrences (call_key <$> cs) ∧
       NoDup (g_Keys g) ∧
       (∀ k, k ∈ g_Keys g ↔ k ∈ call_key <$> cs) ∧
       g_Entries g = (λ k, appended_under k cs) <$> g_Keys g ∧
       (∀ k, k ∈ g_Keys g → Lookup g k = Ok (appended_under k cs, true)).
Proof.
  destruct (do_calls_spec cs) as (g & Hrun & Hwf & Hkeys & Hent).
  exists g. split; [done |]. split; [done |].
  split; [apply (wf_NoDup _ Hwf) |].
  split; [intros k; by rewrite Hkeys, elem_of_first_occurrences |].
  split; [done |].
  intros k Hk. apply list_elem_of_lookup_1 in Hk as [i Hi].
  eapply Lookup_seen; [done | done |].
  by rewrite Hent, list_lookup_fmap, Hi.
Qed.

(** The loop over a receiver that stays as it is, with a visitor that
    threads a state of its own.  If the visitor returns nil on the groups
    [pre] and an error on the next one, [EachGroup] returns that error
    with the state as that call left it: the groups [post] are not
    visited.  If the visitor returns nil on every group, [EachGroup]
    returns nil after the last one. *)
Theorem EachGroup_short_circuits {St} g (f : visitor St) :
  wf g →
  (∀ pre key entries post s s1 s2 e,
     groups g = pre ++ (key, entries) :: post →
     visited f pre s s1 →
     f key entries s1 = Ok (Some e, s2) →
     EachGroup g f s = Ok (Some e, s2)) ∧
  (∀ s s', visited f (groups g) s s' → EachGroup g f s = Ok (None, s')).
Proof.
  intros Hwf.
  assert (Hlen : length (g_Keys g) ≤ length (g_Entries g))
    by (by rewrite (wf_length _ Hwf)).
  split.
  - intros pre key entries post s s1 s2 e Hg Hpre Hstop.
    rewrite EachGroup_visit, Hg by done.
    by eapply visit_in_order_stop.
  - intros s s' Hall. rewrite EachGroup_visit by done.
    by apply visit_in_order_all.
Qed.

(** The loop through the pointer, for a visitor that leaves the cell of
    the receiver as it is: it is the visit, in key order and up to the
    first error, of the groups the receiver has. *)
Lemma ptr_EachGroup_from_visit
    (F : K → Entries → heap → result (error * heap)) fuel p g n i (h : heap) :
  (∀ key entries (h h' : heap) err,
     h !! p = Some g → F key entries h = Ok (err, h') → h' !! p = Some g) →
  h !! p = Some g →
  length (g_Keys g) ≤ length (g_Entries g) →
  i + n = length (g_Keys g) → n < fuel →
  ptr_EachGroup_from fuel p F i h =
    Some (visit_in_order F (drop i (groups g)) h).
Proof.
  intros Hkeep Hp Hlen. revert fuel i h Hp.
  induction n as [| n IH]; intros fuel i h Hp Hi Hfuel;
    (destruct fuel as [| fuel]; [lia |]); simpl;
    unfold deref; rewrite Hp.
  - rewrite bool_decide_false by lia.
    rewrite drop_ge; [done |]. unfold groups. rewrite length_zip. lia.
  - rewrite bool_decide_true by lia.
    destruct (lookup_lt_is_Some_2 (g_Keys g) i) as [key Hk]; [lia |].
    destruct (lookup_lt_is_Some_2 (g_Entries g) i) as [es He]; [lia |].
    rewrite (drop_S _ (key, es)) by (by apply lookup_zip_Some).
    unfold index. rewrite Hk, He. simpl.
    destruct (F key es h) as [[[e |] h'] | e] eqn:HF; simpl;
      [done | | done].
    apply IH; [by eapply Hkeep | lia | lia].
Qed.

Lemma visit_in_order_no_panic {St} (f : visitor St) gs s :
  (∀ key entries s, ∃ r, f key entries s = Ok r) →
  ∃ r, visit_in_order f gs s = Ok r.
Proof.
  intros Hf. revert s. induction gs as [| [k es] gs IH]; intros s; simpl.
  - by eexists.
  - destruct (Hf k es s) as [[[e |] s'] ->]; simpl; [by eexists | apply IH].
Qed.

(** C8. [EachGroup] reads the receiver through its pointer at every
    iteration, so what it visits depends on what the visitor does to the
    receiver.  For a visitor that leaves the receiver, a well-formed map
    [g], as it is: if the visitor returns nil on the groups [pre] and an
    error on the next one, [EachGroup] returns that error with the heap as
    that call left it, and the groups [post] are not visited; if the
    visitor returns nil on every group of [g], in key order, [EachGroup]
    returns nil after the last one.  Any fuel above [len(g.Keys)] is
    enough. *)
Theorem EachGroup_short_circuits_when_receiver_kept
    (F : K → Entries → heap → result (error * heap)) fuel p g :
  wf g → length (g_Keys g) < fuel →
  (∀ key entries (h h' : heap) err,
     h !! p = Some g → F key entries h = Ok (err, h') → h' !! p = Some g) →
  (∀ pre key entries post (h h1 h2 : heap) e,
     h !! p = Some g →
     groups g = pre ++ (key, entries) :: post →
     visited F pre h h1 →
     F key entries h1 = Ok (Some e, h2) →
     ptr_EachGroup fuel p F h = Some (Ok (Some e, h2))) ∧
  (∀ h h' : heap,
     h !! p = Some g →
     visited F (groups g) h h' →
     ptr_EachGroup fuel p F h = Some (Ok (None, h'))).
Proof.
  intros Hwf Hfuel Hkeep.
  assert (Hlen : length (g_Keys g) ≤ length (g_Entries g))
    by (by rewrite (wf_length _ Hwf)).
  assert (Hloop : ∀ h : heap, h !! p = Some g →
            ptr_EachGroup fuel p F h = Some (visit_in_order F (groups g) h)).
  { intros h Hp. unfold ptr_EachGroup.
    by rewrite (ptr_EachGroup_from_visit F fuel p g (length (g_Keys g)) 0 h). }
  split.
  - intros pre key entries post h h1 h2 e Hp Hg Hpre Hstop.
    rewrite Hloop, Hg by done. f_equal. by eapply visit_in_order_stop.
  - intros h h' Hp Hall. rewrite Hloop by done. f_equal.
    by apply visit_in_order_all.
Qed.

(** C9. Every map reachable from [NewGroupedEntries] by [Append],
    [AppendEntries] and [Filter] has [Keys] and [Entries] of equal
    length, no key twice in [Keys], and a [lookup] that sends every key
    present to the one position of [Keys] holding it. *)
Theorem reachable_invariant g :
  reachable g →
  length (g_Keys g) = length (g_Entries g) ∧
  NoDup (g_Keys g) ∧
  ∀ k, k ∈ g_Keys g →
    ∃ i, map_read (g_lookup g) k = (i, true) ∧
         g_Keys g !! i = Some k ∧
         ∀ j, g_Keys g !! j = Some k → j = i.
Proof.
  intros Hwf%reachable_wf.
  split; [apply (wf_length _ Hwf) |]. split; [apply (wf_NoDup _ Hwf) |].
  intros k [i Hi]%list_elem_of_lookup_1. exists i.
  split; [by apply wf_map_read |]. split; [done |].
  intros j Hj. by eapply NoDup_lookup; [apply (wf_NoDup _ Hwf) | |].
Qed.

(** C10. [AppendEntries] with a key that is not in the map and no entries
    registers the key: it is the last of [Keys], [Lookup] finds it with
    an empty group, and [EachGroup] visits the empty group after all the
    others.  [Filter] never returns a map with an empty group. *)
Theorem AppendEntries_registers_empty_group g key :
  wf g → key ∉ g_Keys g →
  ∃ g', AppendEntries g key [] = Ok g' ∧
        g_Keys g' = g_Keys g ++ [key] ∧
        Lookup g' key = Ok ([], true) ∧
        (∀ St (f : visitor St) s,
           EachGroup g' f s =
             '(err, s') ← EachGroup g f s;
             match err with
             | Some _ => Ok (err, s')
             | None => f key [] s'
             end) ∧
        (∀ g0 matcher gf,
           wf g0 → Filter g0 matcher = Ok gf → [] ∉ g_Entries gf).
Proof.
  intros Hwf Hk. destruct (wf_lookup _ Hwf) as (m & Hm & _).
  pose proof (wf_unseen g key [] m Hwf Hm Hk) as Hwf'.
  eexists. split; [by eapply AppendEntries_unseen |].
  split; [done |]. split; [| split].
  - eapply Lookup_seen; [done | |]; simpl.
    + by rewrite lookup_app_r, Nat.sub_diag.
    + rewrite (wf_length _ Hwf). by rewrite lookup_app_r, Nat.sub_diag.
  - intros St f s.
    rewrite (EachGroup_visit g) by apply Nat.eq_le_incl, (wf_length _ Hwf).
    rewrite EachGroup_visit by apply Nat.eq_le_incl, (wf_length _ Hwf').
    unfold groups. simpl.
    rewrite zip_with_app by apply (wf_length _ Hwf).
    apply visit_in_order_snoc.
  - intros g0 matcher gf Hwf0 Hf.
    destruct (Filter_spec g0 matcher Hwf0) as (g'' & Heq & _ & _ & Hent).
    assert (gf = g'') as -> by congruence.
    rewrite Hent. apply filtered_groups_nonempty.
Qed.

(** C7. [Filter], called through a pointer to a well-formed map, returns
    a pointer to a map that was not allocated before.  That map holds,
    for each group of the receiver in key order, the entries of the
    group that satisfy the matcher; a group left empty is absent, key
    included.  The heap is otherwise as before: the receiver is
    unchanged. *)
Theorem Filter_keeps_matching_entries fuel p matcher (h : heap) g :
  h !! p = Some g → wf g → length (g_Keys g) < fuel →
  ∃ q g',
    ptr_Filter fuel p matcher h = Some (Ok (q, <[q := g']> h)) ∧
    h !! q = None ∧
    <[q := g']> h !! p = Some g ∧
    Filter g matcher = Ok g' ∧
    g_Keys g' = (filtered_groups g matcher).*1 ∧
    g_Entries g' = (filtered_groups g matcher).*2 ∧
    (∀ i key entries,
       g_Keys g !! i = Some key → g_Entries g !! i = Some entries →
       Entries_Filter entries matcher = [] → key ∉ g_Keys g').
Proof.
  intros Hp Hwf Hfuel.
  assert (Hlen : length (g_Keys g) ≤ length (g_Entries g))
    by (by rewrite (wf_length _ Hwf)).
  destruct (Filter_spec g matcher Hwf) as (g' & HF & _ & Hkeys & Hent).
  assert (Hq : h !! fresh (dom h) = None)
    by apply not_elem_of_dom, is_fresh.
  exists (fresh (dom h)), g'.
  split; [by rewrite (ptr_Filter_refines fuel p matcher h g), HF |].
  split; [done |].
  split; [rewrite lookup_insert_ne; [done | congruence] |].
  split; [done |]. split; [done |]. split; [done |].
  intros i key entries Hk He Hnone. rewrite Hkeys. intros Hin.
  apply list_elem_of_fmap in Hin as ([k es'] & Heq & Hin).
  simpl in Heq. subst k. unfold filtered_groups in Hin.
  apply list_elem_of_filter in Hin as [Hne Hin]. simpl in Hne.
  apply list_elem_of_fmap in Hin as ([k es] & Heq & Hin).
  simpl in Heq. injection Heq as -> ->.
  apply list_elem_of_lookup_1 in Hin as [j Hj].
  apply lookup_zip_Some in Hj as [Hkj Hej].
  assert (j = i) as ->
    by (by eapply NoDup_lookup; [apply (wf_NoDup _ Hwf) | |]).
  rewrite He in Hej. injection Hej as ->. by apply Hne.
Qed.

(** C4. If no entry of any group matches the anchor descriptor's matcher,
    [ConstructTimelines] returns a non-nil error whose text renders the
    anchor descriptor; so it does on the empty map. *)
Theorem ConstructTimelines_anchor_not_found description d0 :
  description !! 0 = Some d0 →
  (∀ g,
     (∀ es e, es ∈ g_Entries g → e ∈ es → point_Matcher d0 e = false) →
     ConstructTimelines g description =
       Ok ([], Some ("unable to find first entry to anchor timelines "
                       +:+ fmt_v d0))) ∧
  ConstructTimelines NewGroupedEntries description =
    Ok ([], Some ("unable to find first entry to anchor timelines "
                    +:+ fmt_v d0)).
Proof.
  intros Hd.
  assert (Hall : ∀ g,
    (∀ es e, es ∈ g_Entries g → e ∈ es → point_Matcher d0 e = false) →
    ConstructTimelines g description =
      Ok ([], Some ("unable to find first entry to anchor timelines "
                      +:+ fmt_v d0))).
  { intros g Hnone. unfold ConstructTimelines, index. rewrite Hd. simpl.
    by rewrite (first_not_found g (point_Matcher d0) Hnone). }
  split; [done |]. apply Hall. intros es e Hes.
  by apply elem_of_nil in Hes.
Qed.

(** C3. When anchor selection succeeds on a well-formed map,
    [ConstructTimelines] returns one timeline per group, in key order,
    the timeline at each position annotated with the key at that
    position and built from the group at that position. *)
Theorem ConstructTimelines_one_per_group g description d0 anchor :
  wf g →
  description !! 0 = Some d0 →
  first g (point_Matcher d0) = Ok (anchor, true) →
  ∃ timelines,
    ConstructTimelines g description = Ok (timelines, None) ∧
    length timelines = length (g_Keys g) ∧
    Annotation <$> timelines = g_Keys g ∧
    ∀ i key entries,
      g_Keys g !! i = Some key → g_Entries g !! i = Some entries →
      timelines !! i = Some (timeline_of description anchor (key, entries)).
Proof.
  intros Hwf Hd Hfirst.
  assert (Hlen : length (g_Keys g) ≤ length (g_Entries g))
    by (by rewrite (wf_length _ Hwf)).
  eexists. split; [by eapply ConstructTimelines_found |].
  split; [| split].
  - rewrite length_fmap. unfold groups. rewrite length_zip. lia.
  - by rewrite Annotation_timeline_of, groups_keys.
  - intros i key entries Hk He. rewrite list_lookup_fmap.
    unfold groups.
    by rewrite (proj2 (lookup_zip_Some _ _ i key entries) (conj Hk He)).
Qed.

(** ** Further properties of the operations *)

(** A well-formed map is determined by its keys and groups. *)
Lemma wf_unique g g' :
  wf g → wf g' → g_Keys g = g_Keys g' → g_Entries g = g_Entries g' → g = g'.
Proof.
  intros [_ _ (m & Hm & Hiff)] [_ _ (m' & Hm' & Hiff')] Hk He.
  destruct g as [ks es lk], g' as [ks' es' lk']. simpl in *. subst.
  f_equal. f_equal. apply map_eq. intros k. apply option_eq. intros i.
  by rewrite Hiff, Hiff'.
Qed.

Lemma Lookup_total g key :
  wf g → ∃ es found, Lookup g key = Ok (es, found) ∧
                     (found = true ↔ key ∈ g_Keys g).
Proof.
  intros Hwf. destruct (decide (key ∈ g_Keys g)) as [Hin | Hnin].
  - pose proof Hin as [i Hi]%list_elem_of_lookup_1.
    destruct (lookup_lt_is_Some_2 (g_Entries g) i) as [es He].
    { rewrite <- (wf_length _ Hwf). by eapply lookup_lt_Some. }
    exists es, true. split; [by eapply Lookup_seen | done].
  - exists [], false. split; [by apply Lookup_unseen | done].
Qed.

(** X1. On a well-formed map [AppendEntries] returns; afterwards [Lookup]
    of the key finds what it returned before followed by the new entries,
    and [Lookup] of every other key returns what it returned before. *)
Theorem AppendEntries_then_Lookup g key entries :
  wf g →
  ∃ g' old found,
    AppendEntries g key entries = Ok g' ∧
    Lookup g key = Ok (old, found) ∧
    Lookup g' key = Ok (old ++ entries, true) ∧
    ∀ k, k ≠ key → Lookup g' k = Lookup g k.
Proof.
  intros Hwf. destruct (decide (key ∈ g_Keys g)) as [Hin | Hnin].
  - apply list_elem_of_lookup_1 in Hin as [i Hi].
    pose proof (lookup_lt_Some _ _ _ Hi) as Hlt.
    destruct (lookup_lt_is_Some_2 (g_Entries g) i) as [old Ho];
      [by rewrite <- (wf_length _ Hwf) |].
    pose proof (wf_seen g i (old ++ entries) Hwf Hlt) as Hwf'.
    eexists _, old, true.
    split; [by eapply AppendEntries_seen |].
    split; [by eapply Lookup_seen |]. split.
    + eapply Lookup_seen; [done | done |]. simpl.
      apply list_lookup_insert_eq. by rewrite <- (wf_length _ Hwf).
    + intros k Hne. destruct (decide (k ∈ g_Keys g)) as [Hk | Hk].
      * apply list_elem_of_lookup_1 in Hk as [j Hj].
        destruct (lookup_lt_is_Some_2 (g_Entries g) j) as [es He].
        { rewrite <- (wf_length _ Hwf). by eapply lookup_lt_Some. }
        rewrite (Lookup_seen g k j es) by done.
        eapply Lookup_seen; [done | done |]. simpl.
        rewrite list_lookup_insert_ne; [done |]. intros ->. congruence.
      * rewrite (Lookup_unseen g k) by done. by apply Lookup_unseen.
  - destruct (wf_lookup _ Hwf) as (m & Hm & _).
    pose proof (wf_unseen g key entries m Hwf Hm Hnin) as Hwf'.
    eexists _, [], false.
    split; [by eapply AppendEntries_unseen |].
    split; [by apply Lookup_unseen |]. split.
    + eapply Lookup_seen; [done | |]; simpl.
      * by rewrite lookup_app_r, Nat.sub_diag.
      * rewrite (wf_length _ Hwf). by rewrite lookup_app_r, Nat.sub_diag.
    + intros k Hne. destruct (decide (k ∈ g_Keys g)) as [Hk | Hk].
      * apply list_elem_of_lookup_1 in Hk as [j Hj].
        destruct (lookup_lt_is_Some_2 (g_Entries g) j) as [es He].
        { rewrite <- (wf_length _ Hwf). by eapply lookup_lt_Some. }
        rewrite (Lookup_seen g k j es) by done.
        eapply Lookup_seen; [done | |]; simpl.
        -- rewrite lookup_app_l; [done | by eapply lookup_lt_Some].
        -- rewrite lookup_app_l; [done | by eapply lookup_lt_Some].
      * rewrite (Lookup_unseen g k) by done. apply Lookup_unseen; [done |].
        simpl. rewrite elem_of_app, list_elem_of_singleton.
        intros [Hk' | Hk']; [by apply Hk | by apply Hne].
Qed.

(** X2. A [GroupedEntries] whose [lookup] map is nil, as the zero value of
    the struct is, can be read but not written: [Lookup] reports every
    key as not found, and [AppendEntries] and [Append] panic on the
    assignment to the nil map, whatever the key. *)
Theorem nil_lookup_reads_but_panics_on_append g key entries entry :
  g_lookup g = None →
  Lookup g key = Ok ([], false) ∧
  AppendEntries g key entries = Panic assignment_to_nil_map ∧
  Append g key entry = Panic assignment_to_nil_map.
Proof.
  intros Hnil. unfold Append, AppendEntries, Lookup. by rewrite Hnil.
Qed.

Lemma EachGroup_no_panic {St} g (f : visitor St) s :
  length (g_Keys g) ≤ length (g_Entries g) →
  (∀ key entries s, ∃ r, f key entries s = Ok r) →
  ∃ r, EachGroup g f s = Ok r.
Proof.
  intros Hlen Hf. rewrite EachGroup_visit by done.
  revert s. induction (groups g) as [| [k es] gs IH]; intros s; simpl.
  - by eexists.
  - destruct (Hf k es s) as [[[e |] s'] ->]; simpl; [by eexists | apply IH].
Qed.

(** X3. No call panics on a map built from [NewGroupedEntries] by [Append],
    [AppendEntries] and [Filter]: these three and [Lookup] return, and so
    does [EachGroup], called through a pointer with fuel above
    [len(g.Keys)], when the visitor neither panics nor writes the
    receiver. *)
Theorem reachable_calls_return g :
  reachable g →
  (∀ key entries, ∃ g', AppendEntries g key entries = Ok g') ∧
  (∀ key entry, ∃ g', Append g key entry = Ok g') ∧
  (∀ key, ∃ r, Lookup g key = Ok r) ∧
  (∀ matcher, ∃ g', Filter g matcher = Ok g') ∧
  (∀ (F : K → Entries → heap → result (error * heap)) p (h : heap) fuel,
     h !! p = Some g → length (g_Keys g) < fuel →
     (∀ key entries (h h' : heap) err,
        h !! p = Some g → F key entries h = Ok (err, h') →
        h' !! p = Some g) →
     (∀ key entries (h : heap), ∃ r, F key entries h = Ok r) →
     ∃ r, ptr_EachGroup fuel p F h = Some (Ok r)).
Proof.
  intros Hwf%reachable_wf. split; [| split; [| split; [| split]]].
  - intros key entries.
    destruct (AppendEntries_wf g key entries Hwf) as (g' & Hrun & _).
    by exists g'.
  - intros key entry.
    destruct (AppendEntries_wf g key [entry] Hwf) as (g' & Hrun & _).
    by exists g'.
  - intros key. destruct (Lookup_total g key Hwf) as (es & found & Hrun & _).
    by eexists.
  - intros matcher.
    destruct (Filter_spec g matcher Hwf) as (g' & Hrun & _). by exists g'.
  - intros F p h fuel Hp Hfuel Hkeep HF. unfold ptr_EachGroup.
    rewrite (ptr_EachGroup_from_visit F fuel p g (length (g_Keys g)) 0 h);
      [| done | done | by rewrite (wf_length _ Hwf) | done | done].
    destruct (visit_in_order_no_panic F (drop 0 (groups g)) h HF) as [r ->].
    by exists r.
Qed.

Lemma AppendEntries_grows g key entries :
  wf g →
  ∃ g', AppendEntries g key entries = Ok g' ∧ wf g' ∧
        g_Keys g `prefix_of` g_Keys g' ∧
        ∀ i old, g_Entries g !! i = Some old →
          ∃ new, g_Entries g' !! i = Some new ∧ old `prefix_of` new.
Proof.
  intros Hwf. destruct (decide (key ∈ g_Keys g)) as [Hin | Hnin].
  - apply list_elem_of_lookup_1 in Hin as [i Hi].
    pose proof (lookup_lt_Some _ _ _ Hi) as Hlt.
    destruct (lookup_lt_is_Some_2 (g_Entries g) i) as [old Ho];
      [by rewrite <- (wf_length _ Hwf) |].
    eexists. split; [by eapply AppendEntries_seen |].
    split; [by apply wf_seen |]. simpl. split; [done |].
    intros j old' Hj. destruct (decide (j = i)) as [-> | Hne].
    + exists (old ++ entries). split.
      * apply list_lookup_insert_eq. by eapply lookup_lt_Some.
      * assert (old' = old) as -> by congruence. by apply prefix_app_r.
    + exists old'. by rewrite list_lookup_insert_ne.
  - destruct (wf_lookup _ Hwf) as (m & Hm & _).
    eexists. split; [by eapply AppendEntries_unseen |].
    split; [by apply wf_unseen |]. simpl.
    split; [by apply prefix_app_r |].
    intros j old Hj. exists old. split; [| done].
    rewrite lookup_app_l; [done | by eapply lookup_lt_Some].
Qed.

(** X4. Calls of [Append] and [AppendEntries] on a well-formed map only
    add at the end: the keys before the calls are a prefix of the keys
    after them, so no key is removed or moves, and every group is a prefix
    of the group at its position afterwards. *)
Theorem calls_only_grow g cs :
  wf g →
  ∃ g', do_calls g cs = Ok g' ∧ wf g' ∧
        g_Keys g `prefix_of` g_Keys g' ∧
        ∀ i old, g_Entries g !! i = Some old →
          ∃ new, g_Entries g' !! i = Some new ∧ old `prefix_of` new.
Proof.
  revert g. induction cs as [| c cs IH]; intros g Hwf.
  - exists g. split; [done |]. split; [done |]. split; [done |].
    intros i old Hi. by exists old.
  - simpl. rewrite do_call_unfold.
    destruct (AppendEntries_grows g (call_key c) (call_entries c) Hwf)
      as (g1 & -> & Hwf1 & Hk1 & He1). simpl.
    destruct (IH g1 Hwf1) as (g' & Hrun & Hwf' & Hk & He).
    exists g'. split; [done |]. split; [done |].
    split; [by etrans |].
    intros i old Hi. destruct (He1 i old Hi) as (mid & Hmid & Hpre).
    destruct (He i mid Hmid) as (new & Hnew & Hpre').
    exists new. split; [done | by etrans].
Qed.

(** *** Filter, again *)

Lemma Filter_groups g matcher :
  wf g →
  ∃ g', Filter g matcher = Ok g' ∧ wf g' ∧
        groups g' = filtered_groups g matcher.
Proof.
  intros Hwf.
  destruct (Filter_spec g matcher Hwf) as (g' & Hrun & Hwf' & Hkeys & Hent).
  exists g'. split; [done |]. split; [done |].
  unfold groups. by rewrite Hkeys, Hent, zip_fst_snd.
Qed.

Lemma wf_groups_unique g g' : wf g → wf g' → groups g = groups g' → g = g'.
Proof.
  intros Hwf Hwf' Hg. apply wf_unique; [done | done | |].
  - rewrite <- (groups_keys g), <- (groups_keys g'), Hg;
      [done | by rewrite (wf_length _ Hwf') | by rewrite (wf_length _ Hwf)].
  - rewrite <- (groups_entries g), <- (groups_entries g'), Hg;
      [done | by rewrite (wf_length _ Hwf') | by rewrite (wf_length _ Hwf)].
Qed.

Lemma Entries_Filter_twice (es : list Entry) (m1 m2 : Matcher) :
  Entries_Filter (Entries_Filter es m1) m2 =
    Entries_Filter es (λ x, m1 x && m2 x).
Proof.
  unfold Entries_Filter. rewrite list_filter_filter.
  apply list_filter_iff. intros x. rewrite andb_true_iff.
  split; intros [H1 H2]; by split.
Qed.

Lemma filtered_twice (gs : list (K * list Entry)) (m1 m2 : Matcher) :
  filter (λ p, p.2 ≠ [])
    ((λ p, (p.1, Entries_Filter p.2 m2)) <$>
       filter (λ p, p.2 ≠ []) ((λ p, (p.1, Entries_Filter p.2 m1)) <$> gs)) =
  filter (λ p, p.2 ≠ [])
    ((λ p, (p.1, Entries_Filter p.2 (λ x, m1 x && m2 x))) <$> gs).
Proof.
  induction gs as [| [k es] gs IH]; [done |].
  rewrite !fmap_cons. cbn [fst snd].
  rewrite <- (Entries_Filter_twice es m1 m2).
  destruct (Entries_Filter es m1) as [| x es1] eqn:Hes1.
  - rewrite (filter_cons_False _ (k, [])) by (simpl; by intros Hne).
    rewrite IH. rewrite filter_cons_False; [done |].
    simpl. by intros Hne.
  - rewrite (filter_cons_True _ (k, x :: es1)) by done.
    rewrite fmap_cons. cbn [fst snd]. rewrite !filter_cons.
    by rewrite IH.
Qed.

Lemma Entries_Filter_all (es : list Entry) (matcher : Matcher) :
  (∀ e, e ∈ es → matcher e = true) → Entries_Filter es matcher = es.
Proof.
  unfold Entries_Filter. induction es as [| x es IH]; intros Hm; [done |].
  rewrite filter_cons_True by (apply Hm; by left). f_equal.
  apply IH. intros e He. apply Hm. by right.
Qed.

(** A map without empty groups, all of whose entries match, is what
    [Filter] returns for it. *)
Lemma Filter_fixed g matcher :
  wf g → [] ∉ g_Entries g →
  (∀ es e, es ∈ g_Entries g → e ∈ es → matcher e = true) →
  Filter g matcher = Ok g.
Proof.
  intros Hwf Hne Hall.
  destruct (Filter_groups g matcher Hwf) as (g' & Hrun & Hwf' & Hg).
  rewrite Hrun. f_equal. apply wf_groups_unique; [done | done |].
  rewrite Hg. unfold filtered_groups.
  assert (Hin : ∀ p, p ∈ groups g → p.2 ∈ g_Entries g).
  { intros [k es] [i Hi]%list_elem_of_lookup_1.
    apply lookup_zip_Some in Hi as [_ He]. by eapply list_elem_of_lookup_2. }
  induction (groups g) as [| [k es] gs IH]; [done |].
  rewrite fmap_cons. cbn [fst snd].
  assert (Hes : Entries_Filter es matcher = es).
  { apply Entries_Filter_all. intros e He. apply (Hall es); [| done].
    apply (Hin (k, es)). by left. }
  rewrite Hes. rewrite filter_cons_True.
  - f_equal. apply IH. intros p Hp. apply Hin. by right.
  - simpl. intros ->. apply Hne. apply (Hin (k, [])). by left.
Qed.

(** X5. Filtering twice is filtering once with both matchers: on a
    well-formed map, [Filter] with [m1] and then [m2] returns the map that
    [Filter] returns for the conjunction; and filtering the result of
    [Filter] again with the same matcher changes nothing. *)
Theorem Filter_twice g m1 m2 :
  wf g →
  ∃ g1 g2,
    Filter g m1 = Ok g1 ∧
    Filter g1 m2 = Ok g2 ∧
    Filter g (λ x, m1 x && m2 x) = Ok g2 ∧
    Filter g1 m1 = Ok g1.
Proof.
  intros Hwf.
  destruct (Filter_groups g m1 Hwf) as (g1 & Hrun1 & Hwf1 & Hg1).
  destruct (Filter_groups g1 m2 Hwf1) as (g2 & Hrun2 & Hwf2 & Hg2).
  destruct (Filter_groups g (λ x, m1 x && m2 x) Hwf)
    as (g12 & Hrun12 & Hwf12 & Hg12).
  exists g1, g2. split; [done |]. split; [done |]. split.
  - rewrite Hrun12. f_equal. apply wf_groups_unique; [done | done |].
    rewrite Hg12, Hg2. unfold filtered_groups at 1 2. rewrite Hg1.
    unfold filtered_groups. symmetry. apply filtered_twice.
  - assert (Hent : g_Entries g1 = (filtered_groups g m1).*2).
    { rewrite <- Hg1. symmetry. apply groups_entries.
      by rewrite (wf_length _ Hwf1). }
    apply Filter_fixed; [done | |].
    + rewrite Hent. apply filtered_groups_nonempty.
    + intros es e Hes He. rewrite Hent in Hes.
      apply list_elem_of_fmap in Hes as ([k es'] & -> & Hin).
      unfold filtered_groups in Hin.
      apply list_elem_of_filter in Hin as [_ Hin].
      apply list_elem_of_fmap in Hin as ([k0 es0] & [= -> Heq] & _).
      simpl in He. rewrite Heq in He. unfold Entries_Filter in He.
      by apply list_elem_of_filter in He as [Hm _].
Qed.

(** X6. On a well-formed map without empty groups [Filter] with a matcher
    that accepts every entry of the map returns an equal map. *)
Theorem Filter_accept_all g matcher :
  wf g → [] ∉ g_Entries g →
  (∀ es e, es ∈ g_Entries g → e ∈ es → matcher e = true) →
  Filter g matcher = Ok g.
Proof. apply Filter_fixed. Qed.

(** X7. [Filter] with a matcher that accepts no entry of the map returns
    the map that [NewGroupedEntries] returns: no key is left. *)
Theorem Filter_reject_all g matcher :
  wf g →
  (∀ es e, es ∈ g_Entries g → e ∈ es → matcher e = false) →
  Filter g matcher = Ok NewGroupedEntries.
Proof.
  intros Hwf Hnone.
  rewrite Filter_calls by (by rewrite (wf_length _ Hwf)).
  assert (Hfg : filtered_groups g matcher = []).
  { unfold filtered_groups.
    assert (Hin : ∀ p, p ∈ groups g → p.2 ∈ g_Entries g).
    { intros [k es] [i Hi]%list_elem_of_lookup_1.
      apply lookup_zip_Some in Hi as [_ He].
      by eapply list_elem_of_lookup_2. }
    induction (groups g) as [| [k es] gs IH]; [done |].
    rewrite fmap_cons, filter_cons_False.
    - apply IH. intros p Hp. apply Hin. by right.
    - simpl. intros Hne. apply Hne.
      destruct (Entries_Filter es matcher) as [| x l] eqn:Hf; [done |].
      assert (Hx : x ∈ Entries_Filter es matcher) by (rewrite Hf; by left).
      unfold Entries_Filter in Hx.
      apply list_elem_of_filter in Hx as [Hm Hx].
      rewrite (Hnone es x) in Hm; [done | | done].
      apply (Hin (k, es)). by left. }
  by rewrite Hfg.
Qed.

(** *** The anchor of a filtered map *)

Lemma first_match_cons (matcher : Matcher) x (es : list Entry) :
  first_match matcher (x :: es) =
    if matcher x then Some x else first_match matcher es.
Proof.
  unfold first_match. cbn. destruct (matcher x) eqn:Hx.
  - by rewrite decide_True.
  - rewrite decide_False by done.
    by destruct (list_find _ es) as [[i y] |].
Qed.

Lemma first_match_Entries_Filter (matcher : Matcher) (es : list Entry) :
  first_match matcher (Entries_Filter es matcher) = first_match matcher es.
Proof.
  unfold Entries_Filter. induction es as [| x es IH]; [done |].
  rewrite filter_cons, first_match_cons. destruct (matcher x) eqn:Hx.
  - rewrite decide_True by done. by rewrite first_match_cons, Hx.
  - by rewrite decide_False by done.
Qed.

Lemma omap_cons_match {A B} (f : A → option B) x (l : list A) :
  omap f (x :: l) =
    match f x with
    | Some y => y :: omap f l
    | None => omap f l
    end.
Proof. done. Qed.

Lemma candidates_filtered (matcher : Matcher) (gs : list (K * list Entry)) :
  omap (first_match matcher)
    (filter (λ p, p.2 ≠ [])
       ((λ p, (p.1, Entries_Filter p.2 matcher)) <$> gs)).*2 =
  omap (first_match matcher) gs.*2.
Proof.
  induction gs as [| [k es] gs IH]; [done |].
  rewrite !fmap_cons. cbn [fst snd].
  rewrite (omap_cons_match _ es).
  rewrite <- (first_match_Entries_Filter matcher es).
  destruct (Entries_Filter es matcher) as [| x es'] eqn:Hes.
  - rewrite filter_cons_False by (simpl; by intros Hne). by rewrite IH.
  - rewrite filter_cons_True by done. rewrite fmap_cons. cbn [fst snd].
    rewrite omap_cons_match. by rewrite IH.
Qed.

(** X8. Filtering a well-formed map with a matcher leaves the candidates
    for that matcher, and so what [first] returns for it, as they were:
    timelines built on the filtered map have the anchor of the whole
    map. *)
Theorem first_after_Filter g matcher :
  wf g →
  ∃ gf, Filter g matcher = Ok gf ∧
        candidates gf matcher = candidates g matcher ∧
        first gf matcher = first g matcher.
Proof.
  intros Hwf.
  destruct (Filter_spec g matcher Hwf) as (gf & Hrun & Hwf' & _ & Hent).
  exists gf. split; [done |].
  assert (Hc : candidates gf matcher = candidates g matcher).
  { unfold candidates. rewrite Hent. unfold filtered_groups.
    rewrite candidates_filtered, groups_entries; [done |].
    by rewrite (wf_length _ Hwf). }
  split; [done |]. by rewrite !first_unfold, Hc.
Qed.

(** *** Filter after a sequence of calls *)

Lemma appended_under_filter_call k matcher cs :
  appended_under k (omap (filter_call matcher) cs) =
    Entries_Filter (appended_under k cs) matcher.
Proof.
  unfold appended_under, Entries_Filter.
  induction cs as [| c cs IH]; [done |].
  rewrite bind_cons, filter_app, <- IH, omap_cons_match.
  unfold filter_call.
  destruct (Entries_Filter (call_entries c) matcher) as [| x es] eqn:Hes;
    unfold Entries_Filter in Hes.
  - destruct (decide (call_key c = k)); [| done]. by rewrite Hes.
  - rewrite bind_cons. simpl.
    destruct (decide (call_key c = k)); [| done]. by rewrite Hes.
Qed.

Lemma appended_under_seen c cs :
  c ∈ cs → call_entries c ≠ [] → appended_under (call_key c) cs ≠ [].
Proof.
  unfold appended_under. induction 1 as [c cs | c c' cs Hin IH]; intros Hne.
  - rewrite bind_cons, decide_True by done. intros Happ.
    apply app_eq_nil in Happ as [Hnil _]. by apply Hne.
  - rewrite bind_cons. intros Happ.
    apply app_eq_nil in Happ as [_ Hnil]. by apply IH.
Qed.

Lemma filter_call_nonempty matcher c c' :
  filter_call matcher c = Some c' → call_entries c' ≠ [].
Proof.
  unfold filter_call.
  destruct (Entries_Filter (call_entries c) matcher); [done |].
  by intros [= <-].
Qed.

(** X9. Filtering after a sequence of [Append]/[AppendEntries] calls on a
    new map, and making the calls with only the matching entries (a call
    left without entries is not made), give maps with the same keys and,
    by [Lookup], the same group for every key; the order of the keys may
    differ. *)
Theorem Filter_after_calls cs matcher :
  ∃ g g1 g2,
    do_calls NewGroupedEntries cs = Ok g ∧
    Filter g matcher = Ok g2 ∧
    do_calls NewGroupedEntries (omap (filter_call matcher) cs) = Ok g1 ∧
    g_Keys g1 ≡ₚ g_Keys g2 ∧
    ∀ k, Lookup g1 k = Lookup g2 k.
Proof.
  destruct (do_calls_spec cs) as (g & Hrun & Hwf & Hkeys & Hent).
  destruct (do_calls_spec (omap (filter_call matcher) cs))
    as (g1 & Hrun1 & Hwf1 & Hkeys1 & Hent1).
  destruct (Filter_groups g matcher Hwf) as (g2 & Hrun2 & Hwf2 & Hg2).
  exists g, g1, g2. split; [done |]. split; [done |]. split; [done |].
  assert (Hg : groups g = (λ k, (k, appended_under k cs)) <$> g_Keys g)
    by (unfold groups; by rewrite Hent, zip_fmap_self).
  assert (Hg1 : groups g1 =
            (λ k, (k, Entries_Filter (appended_under k cs) matcher))
              <$> g_Keys g1).
  { unfold groups. rewrite Hent1, zip_fmap_self.
    apply list_fmap_ext. intros i k _.
    by rewrite appended_under_filter_call. }
  assert (Hin2 : ∀ k es, (k, es) ∈ groups g2 ↔
            es = Entries_Filter (appended_under k cs) matcher ∧ es ≠ []).
  { intros k es. rewrite Hg2. unfold filtered_groups.
    rewrite list_elem_of_filter, Hg, <- list_fmap_compose,
      list_elem_of_fmap. simpl. split.
    - intros (Hne & k' & [= -> ->] & Hk'). by split.
    - intros [-> Hne]. split; [done |]. exists k. split; [done |].
      rewrite Hkeys, elem_of_first_occurrences.
      destruct (decide (k ∈ call_key <$> cs)) as [Hk | Hk]; [done |].
      rewrite (appended_under_unseen k cs Hk) in Hne. by destruct Hne. }
  assert (Hin1 : ∀ k, k ∈ g_Keys g1 ↔
            Entries_Filter (appended_under k cs) matcher ≠ []).
  { intros k. rewrite Hkeys1, elem_of_first_occurrences.
    rewrite <- appended_under_filter_call. split.
    - intros (c' & -> & Hc')%list_elem_of_fmap.
      apply appended_under_seen; [done |].
      apply list_elem_of_omap in Hc' as (c & _ & Hc).
      by eapply filter_call_nonempty.
    - intros Hne.
      destruct (decide (k ∈ call_key <$> omap (filter_call matcher) cs))
        as [Hk | Hk]; [done |].
      by rewrite (appended_under_unseen k _ Hk) in Hne. }
  assert (Hkeys12 : ∀ k, k ∈ g_Keys g1 ↔ k ∈ g_Keys g2).
  { intros k. rewrite Hin1.
    rewrite <- (groups_keys g2) by (by rewrite (wf_length _ Hwf2)).
    rewrite list_elem_of_fmap. split.
    - intros Hne. eexists (k, _). split; [done |]. by apply Hin2.
    - intros ([k' es] & -> & Hin). by apply Hin2 in Hin as [-> Hne]. }
  split.
  - apply NoDup_Permutation; [apply (wf_NoDup _ Hwf1)
                             | apply (wf_NoDup _ Hwf2) | done].
  - intros k. destruct (decide (k ∈ g_Keys g1)) as [Hk | Hk].
    + assert (Hk1 : (k, Entries_Filter (appended_under k cs) matcher)
                      ∈ groups g1).
      { rewrite Hg1. apply list_elem_of_fmap. by exists k. }
      rewrite (Lookup_groups g1 k _ Hwf1 Hk1).
      symmetry. apply Lookup_groups; [done |]. apply Hin2.
      split; [done |]. by apply Hin1.
    + rewrite (Lookup_unseen g1 k Hwf1 Hk). symmetry.
      apply Lookup_unseen; [done |]. by rewrite <- Hkeys12.
Qed.

(** *** Iteration out of bounds *)

Lemma EachGroup_from_short {St} g (f : visitor St) n i s s' :
  length (g_Entries g) < length (g_Keys g) →
  i + n = length (g_Keys g) → i ≤ length (g_Entries g) →
  visited f (drop i (groups g)) s s' →
  EachGroup_from g f n i s = Panic index_out_of_range.
Proof.
  intros Hshort. revert i s.
  induction n as [| n IH]; intros i s Hi Hle Hv; [lia |].
  destruct (lookup_lt_is_Some_2 (g_Keys g) i) as [key Hk]; [lia |].
  simpl. unfold index. rewrite Hk. simpl.
  destruct (g_Entries g !! i) as [es |] eqn:He; [| done]. simpl.
  rewrite (drop_S _ (key, es)) in Hv by (by apply lookup_zip_Some).
  inversion Hv as [| ? ? ? ? s1 ? Hf Hrest]; subst.
  rewrite Hf. simpl. apply IH; [lia | | done].
  apply lookup_lt_Some in He. lia.
Qed.

(** X10. A struct with fewer groups than keys makes [EachGroup] panic:
    when the visitor returns nil on every group there is, the read of
    [g.Entries[i]] for the first key without a group is out of range. *)
Theorem EachGroup_index_out_of_range {St} g (f : visitor St) s s' :
  length (g_Entries g) < length (g_Keys g) →
  visited f (groups g) s s' →
  EachGroup g f s = Panic index_out_of_range.
Proof.
  intros Hshort Hv. unfold EachGroup.
  by apply (EachGroup_from_short g f _ 0 s s'); [| | lia |].
Qed.

(** *** What the dump writes *)

Lemma EachGroup_from_ext {St} g (f f' : visitor St) n i s :
  (∀ key entries s, f key entries s = f' key entries s) →
  EachGroup_from g f n i s = EachGroup_from g f' n i s.
Proof.
  intros Hext. revert i s. induction n as [| n IH]; intros i s; [done |].
  simpl. destruct (index (g_Keys g) i) as [key | e]; [| done].
  destruct (index (g_Entries g) i) as [es | e]; [| done]. simpl.
  rewrite Hext. destruct (f' key es s) as [[[e |] s1] | e]; simpl;
    [done | apply IH | done].
Qed.

Lemma WriteLagerFormatTo_visit {W} (Write : W → string → error * W) fmt_s
    Entries_WriteLagerFormatTo g w :
  length (g_Keys g) ≤ length (g_Entries g) →
  WriteLagerFormatTo Write fmt_s Entries_WriteLagerFormatTo g w =
    '(_, w') ← visit_in_order
                 (λ key entries w,
                    Ok (dump_group Write fmt_s Entries_WriteLagerFormatTo
                          key entries w))
                 (groups g) w;
    Ok (None, w').
Proof.
  intros Hlen. unfold WriteLagerFormatTo.
  rewrite <- EachGroup_visit by done. unfold EachGroup.
  rewrite (EachGroup_from_ext g _
             (λ key entries w,
                Ok (dump_group Write fmt_s Entries_WriteLagerFormatTo
                      key entries w))); [done |].
  intros key entries w0. unfold dump_group.
  by destruct (Fprintf Write w0 (fmt_s key +:+ newline)).
Qed.

(** X11. The dump goes through the groups of a well-formed map in key
    order; for each it writes the key line and then has the entries
    written, whatever became of the key line.  It stops after the first
    group whose entries fail to be written: the sink is left as that
    failure left it, and the later groups are not written.  The error
    returned is nil in both cases. *)
Theorem WriteLagerFormatTo_writes_in_order {W}
    (Write : W → string → error * W) fmt_s Entries_WriteLagerFormatTo g :
  wf g →
  (∀ pre key entries post w w1 w2 e,
     groups g = pre ++ (key, entries) :: post →
     visited (λ key entries w,
                Ok (dump_group Write fmt_s Entries_WriteLagerFormatTo
                      key entries w)) pre w w1 →
     dump_group Write fmt_s Entries_WriteLagerFormatTo key entries w1
       = (Some e, w2) →
     WriteLagerFormatTo Write fmt_s Entries_WriteLagerFormatTo g w
       = Ok (None, w2)) ∧
  (∀ w w',
     visited (λ key entries w,
                Ok (dump_group Write fmt_s Entries_WriteLagerFormatTo
                      key entries w)) (groups g) w w' →
     WriteLagerFormatTo Write fmt_s Entries_WriteLagerFormatTo g w
       = Ok (None, w')).
Proof.
  intros Hwf.
  assert (Hlen : length (g_Keys g) ≤ length (g_Entries g))
    by (by rewrite (wf_length _ Hwf)).
  split.
  - intros pre key entries post w w1 w2 e Hg Hpre Hfail.
    rewrite WriteLagerFormatTo_visit, Hg by done.
    erewrite visit_in_order_stop; [done | done |]. simpl. by rewrite Hfail.
  - intros w w' Hall. rewrite WriteLagerFormatTo_visit by done.
    by erewrite visit_in_order_all.
Qed.

(** *** A visitor that writes the receiver *)

Lemma ptr_EachGroup_from_grows
    (F : K → Entries → heap → result (error * heap)) p :
  (∀ key entries (h : heap) g,
     h !! p = Some g → wf g →
     ∃ (h' : heap) g',
       F key entries h = Ok (None, h') ∧ h' !! p = Some g' ∧ wf g' ∧
       length (g_Keys g) < length (g_Keys g')) →
  ∀ fuel i (h : heap) g,
    h !! p = Some g → wf g → i < length (g_Keys g) →
    ptr_EachGroup_from fuel p F i h = None.
Proof.
  intros HF. induction fuel as [| fuel IH]; intros i h g Hp Hwf Hi; [done |].
  simpl. unfold deref. rewrite Hp. rewrite bool_decide_true by done.
  destruct (lookup_lt_is_Some_2 (g_Keys g) i) as [key Hk]; [done |].
  destruct (lookup_lt_is_Some_2 (g_Entries g) i) as [es He];
    [by rewrite <- (wf_length _ Hwf) |].
  unfold index. rewrite Hk, He. simpl.
  destruct (HF key es h g Hp Hwf) as (h' & g' & -> & Hp' & Hwf' & Hlen).
  apply (IH (S i) h' g'); [done | done | lia].
Qed.

(** X15. [EachGroup] reads [len(g.Keys)] again at every iteration.  With a
    visitor that returns nil and leaves the receiver with more keys than
    it had, the loop over a map that has a key never ends: no amount of
    fuel gives a result. *)
Theorem ptr_EachGroup_never_returns
    (F : K → Entries → heap → result (error * heap)) p (h : heap) g fuel :
  (∀ key entries (h : heap) g,
     h !! p = Some g → wf g →
     ∃ (h' : heap) g',
       F key entries h = Ok (None, h') ∧ h' !! p = Some g' ∧ wf g' ∧
       length (g_Keys g) < length (g_Keys g')) →
  h !! p = Some g → wf g → g_Keys g ≠ [] →
  ptr_EachGroup fuel p F h = None.
Proof.
  intros HF Hp Hwf Hne. unfold ptr_EachGroup.
  apply (ptr_EachGroup_from_grows F p HF fuel 0 h g); [done | done |].
  destruct (g_Keys g); [done | simpl; lia].
Qed.

(** *** Lookup against the slices, batches, and the loop through a
    pointer *)

(** X17. On a well-formed map [Lookup] and the parallel slices agree:
    [Lookup] finds a key with a group exactly when that key and that group
    sit at the same position of [Keys] and [Entries], which is when
    [EachGroup] visits the pair; a key that is not in [Keys] is not
    found. *)
Theorem Lookup_agrees_with_groups g key :
  wf g →
  (∀ es, Lookup g key = Ok (es, true) ↔ (key, es) ∈ groups g) ∧
  (key ∉ g_Keys g ↔ Lookup g key = Ok ([], false)).
Proof.
  intros Hwf. split.
  - intros es. split; [| by apply Lookup_groups].
    intros Hrun. destruct (decide (key ∈ g_Keys g)) as [Hin | Hnin].
    + apply list_elem_of_lookup_1 in Hin as [i Hi].
      destruct (lookup_lt_is_Some_2 (g_Entries g) i) as [es' He].
      { rewrite <- (wf_length _ Hwf). by eapply lookup_lt_Some. }
      rewrite (Lookup_seen g key i es' Hwf Hi He) in Hrun.
      injection Hrun as ->.
      apply (list_elem_of_lookup_2 _ i). by apply lookup_zip_Some.
    + by rewrite (Lookup_unseen g key Hwf Hnin) in Hrun.
  - split; [by apply Lookup_unseen |].
    intros Hrun Hin. apply list_elem_of_lookup_1 in Hin as [i Hi].
    destruct (lookup_lt_is_Some_2 (g_Entries g) i) as [es' He].
    { rewrite <- (wf_length _ Hwf). by eapply lookup_lt_Some. }
    by rewrite (Lookup_seen g key i es' Hwf Hi He) in Hrun.
Qed.

Lemma AppendEntries_app g key (a b : list Entry) :
  wf g →
  AppendEntries g key (a ++ b) =
    g' ← AppendEntries g key a; AppendEntries g' key b.
Proof.
  intros Hwf. destruct (decide (key ∈ g_Keys g)) as [Hin | Hnin].
  - apply list_elem_of_lookup_1 in Hin as [i Hi].
    pose proof (lookup_lt_Some _ _ _ Hi) as Hlt.
    destruct (lookup_lt_is_Some_2 (g_Entries g) i) as [old Ho];
      [by rewrite <- (wf_length _ Hwf) |].
    rewrite (AppendEntries_seen g key (a ++ b) i old) by done.
    rewrite (AppendEntries_seen g key a i old) by done. simpl.
    pose proof (wf_seen g i (old ++ a) Hwf Hlt) as Hwf1.
    rewrite (AppendEntries_seen _ key b i (old ++ a) Hwf1); simpl.
    + by rewrite list_insert_insert_eq, app_assoc.
    + done.
    + apply list_lookup_insert_eq. by rewrite <- (wf_length _ Hwf).
  - destruct (wf_lookup _ Hwf) as (m & Hm & _).
    rewrite (AppendEntries_unseen g key (a ++ b) m) by done.
    rewrite (AppendEntries_unseen g key a m) by done. simpl.
    pose proof (wf_unseen g key a m Hwf Hm Hnin) as Hwf1.
    rewrite (AppendEntries_seen _ key b (length (g_Keys g)) a Hwf1); simpl.
    + rewrite (wf_length _ Hwf).
      rewrite insert_app_r_alt, Nat.sub_diag by lia. done.
    + by rewrite lookup_app_r, Nat.sub_diag.
    + rewrite (wf_length _ Hwf). by rewrite lookup_app_r, Nat.sub_diag.
Qed.

(** X18. On a well-formed map, appending a batch in two parts is appending
    it at once, and [AppendEntries] with a batch that is not empty is one
    [Append] per entry, in order. *)
Theorem AppendEntries_in_parts g key (a b : list Entry) :
  wf g →
  AppendEntries g key (a ++ b) =
    (g' ← AppendEntries g key a; AppendEntries g' key b) ∧
  (b ≠ [] → do_calls g (CallAppend key <$> b) = AppendEntries g key b).
Proof.
  intros Hwf. split; [by apply AppendEntries_app |].
  revert g Hwf. induction b as [| x b IH]; intros g Hwf Hne; [done |].
  rewrite fmap_cons. cbn [do_calls do_call]. unfold Append.
  destruct b as [| y b]; [by destruct (AppendEntries g key [x]) |].
  change (x :: y :: b) with ([x] ++ y :: b).
  rewrite AppendEntries_app by done.
  destruct (AppendEntries_wf g key [x] Hwf) as (g1 & -> & Hwf1). simpl.
  by apply IH.
Qed.

(** X19. With a visitor that leaves the receiver alone, [EachGroup] through
    the pointer returns once the fuel exceeds [len(g.Keys)], with what
    visiting the groups in key order up to the first error gives.  The
    visitor keeps its state [s] in the heap [emb s], where the receiver
    holds [g] whatever [s]. *)
Theorem ptr_EachGroup_returns {St} (emb : St → heap)
    (F : K → Entries → heap → result (error * heap)) (f : visitor St)
    fuel p g s :
  (∀ s, emb s !! p = Some g) →
  (∀ key entries s,
     F key entries (emb s) =
       '(err, s') ← f key entries s; Ok (err, emb s')) →
  wf g → length (g_Keys g) < fuel →
  ptr_EachGroup fuel p F (emb s) =
    Some ('(err, s') ← visit_in_order f (groups g) s; Ok (err, emb s')).
Proof.
  intros Hp Hsim Hwf Hfuel.
  assert (Hlen : length (g_Keys g) ≤ length (g_Entries g))
    by (by rewrite (wf_length _ Hwf)).
  unfold ptr_EachGroup.
  rewrite (ptr_EachGroup_from_refines emb F f fuel p g
             (length (g_Keys g)) 0 s) by done.
  by rewrite (EachGroup_from_visit g f _ 0 s).
Qed.

(** *** The anchor under the contract of [sort.Sort]

    [sort.Interface] asks of [Less] a transitive ordering: "if both
    Less(i, j) and Less(j, k) are false, then Less(i, k) must be false
    as well"; an element is not less than itself.  [sort.Sort] permutes
    its argument and leaves it sorted.  These are assumptions on the
    collaborators, used for the anchor only. *)
Section anchor.
Hypothesis Less_irreflexive : ∀ x, Less x x = false.
Hypothesis Less_false_transitive :
  ∀ x y z, Less x y = false → Less y z = false → Less x z = false.
Hypothesis sort_Sort_Permutation : ∀ e, sort_Sort e ≡ₚ e.
Hypothesis sort_Sort_IsSorted : ∀ e, IsSorted (sort_Sort e) = true.

Lemma IsSorted_head_least a e c :
  IsSorted (a :: e) = true → c ∈ a :: e → Less c a = false.
Proof using Less_irreflexive Less_false_transitive.
  revert a c. induction e as [| b e IH]; intros a c Hs Hc.
  - apply list_elem_of_singleton in Hc as ->. apply Less_irreflexive.
  - cbn [IsSorted] in Hs. apply andb_prop in Hs as [Hba Hs].
    apply negb_true_iff in Hba.
    apply elem_of_cons in Hc as [-> | Hc]; [apply Less_irreflexive |].
    eapply Less_false_transitive; [| exact Hba]. by apply IH.
Qed.

Lemma first_least g matcher :
  candidates g matcher ≠ [] →
  ∃ anchor, first g matcher = Ok (anchor, true) ∧
            anchor ∈ candidates g matcher ∧
            ∀ c, c ∈ candidates g matcher → Less c anchor = false.
Proof using Less_irreflexive Less_false_transitive
            sort_Sort_Permutation sort_Sort_IsSorted.
  intros Hne. rewrite first_unfold.
  rewrite bool_decide_false
    by (by destruct (candidates g matcher)).
  pose proof (sort_Sort_Permutation (candidates g matcher)) as Hperm.
  pose proof (sort_Sort_IsSorted (candidates g matcher)) as Hsorted.
  destruct (sort_Sort (candidates g matcher)) as [| a sorted] eqn:Hs.
  - apply Permutation_nil_l in Hperm. congruence.
  - exists a. split; [done |]. split.
    + rewrite <- Hperm. by left.
    + intros c Hc. eapply IsSorted_head_least; [done |].
      by rewrite Hperm.
Qed.

(** C1. On a well-formed map with an entry that matches the anchor
    descriptor's matcher, [ConstructTimelines] builds every group's
    timeline against one anchor.  The anchor is one of the candidates
    (the first match of a group, in that group's order), and no
    candidate is less than it.  With two groups whose candidates are
    [e1] and [e2], [e1] less than [e2], the anchor is [e1] in either
    order of the groups. *)
Theorem ConstructTimelines_anchor_is_least_candidate g description d0 :
  wf g →
  description !! 0 = Some d0 →
  (∃ es e, es ∈ g_Entries g ∧ e ∈ es ∧ point_Matcher d0 e = true) →
  ∃ anchor,
    anchor ∈ candidates g (point_Matcher d0) ∧
    (∀ c, c ∈ candidates g (point_Matcher d0) → Less c anchor = false) ∧
    ConstructTimelines g description =
      Ok (timeline_of description anchor <$> groups g, None) ∧
    (∀ es1 es2 e1 e2,
       first_match (point_Matcher d0) es1 = Some e1 →
       first_match (point_Matcher d0) es2 = Some e2 →
       Less e1 e2 = true →
       g_Entries g = [es1; es2] ∨ g_Entries g = [es2; es1] →
       anchor = e1).
Proof using Less_irreflexive Less_false_transitive
            sort_Sort_Permutation sort_Sort_IsSorted.
  intros Hwf Hd (es & e & Hes & He & Hm).
  destruct (first_least g (point_Matcher d0)) as (a & Hfirst & Hin & Hmin);
    [by eapply candidates_nonempty |].
  exists a. split; [done |]. split; [done |]. split.
  - eapply ConstructTimelines_found; [| done | done].
    by rewrite (wf_length _ Hwf).
  - intros es1 es2 e1 e2 H1 H2 Hlt Hg.
    assert (Hcs : candidates g (point_Matcher d0) = [e1; e2] ∨
                  candidates g (point_Matcher d0) = [e2; e1]).
    { unfold candidates.
      destruct Hg as [-> | ->]; simpl; rewrite H1, H2; auto. }
    assert (Hin1 : e1 ∈ candidates g (point_Matcher d0)).
    { destruct Hcs as [-> | ->]; [by left | right; by left]. }
    assert (Hc : a = e1 ∨ a = e2).
    { destruct Hcs as [Hcs | Hcs]; rewrite Hcs in Hin;
        rewrite !elem_of_cons, elem_of_nil in Hin; tauto. }
    destruct Hc as [-> | ->]; [done |].
    apply Hmin in Hin1. congruence.
Qed.
(** *** More on the anchor *)

Lemma candidates_elem_of g matcher c :
  c ∈ candidates g matcher →
  matcher c = true ∧ ∃ es, es ∈ g_Entries g ∧ c ∈ es.
Proof.
  intros (es & Hes & Hc)%list_elem_of_omap.
  apply first_match_Some in Hc as (i & Hi & Hm & _).
  split; [done |]. exists es. split; [done |].
  by eapply list_elem_of_lookup_2.
Qed.

Lemma candidates_nil g matcher :
  candidates g matcher = [] →
  ∀ es e, es ∈ g_Entries g → e ∈ es → matcher e = false.
Proof.
  intros Hnil es e Hes He.
  destruct (matcher e) eqn:Hm; [| done].
  by destruct (candidates_nonempty g matcher es e Hes He Hm).
Qed.

Lemma first_outcome g matcher :
  (candidates g matcher = [] ∧ first g matcher = Ok (zeroEntry, false)) ∨
  (∃ anchor, anchor ∈ candidates g matcher ∧
             first g matcher = Ok (anchor, true)).
Proof using sort_Sort_Permutation.
  rewrite first_unfold.
  destruct (candidates g matcher) as [| c cs] eqn:Hc; [by left |].
  right. rewrite bool_decide_false by done.
  pose proof (sort_Sort_Permutation (c :: cs)) as Hperm.
  destruct (sort_Sort (c :: cs)) as [| a sorted] eqn:Hs.
  - by apply Permutation_nil_l in Hperm.
  - exists a. split; [| done]. rewrite <- Hperm. by left.
Qed.

(** X12. Whatever the map, [first] returns: either an entry of some group
    that matches, with [found = true], or, when no entry of any group
    matches, [Entry{}] with [found = false]. *)
Theorem first_returns_matching_entry g matcher :
  ∃ anchor found,
    first g matcher = Ok (anchor, found) ∧
    (found = true →
       matcher anchor = true ∧ ∃ es, es ∈ g_Entries g ∧ anchor ∈ es) ∧
    (found = false →
       anchor = zeroEntry ∧
       ∀ es e, es ∈ g_Entries g → e ∈ es → matcher e = false).
Proof using sort_Sort_Permutation.
  destruct (first_outcome g matcher) as [[Hnil Hrun] | (a & Hin & Hrun)].
  - exists zeroEntry, false. split; [done |]. split; [done |].
    intros _. split; [done |]. by apply candidates_nil.
  - exists a, true. split; [done |]. split; [| done].
    intros _. by apply candidates_elem_of.
Qed.

(** X13. The outcomes of [ConstructTimelines] on a well-formed map.  An
    empty description makes it panic on [description[0]].  Otherwise it
    returns: a nil error with one timeline per group exactly when some
    entry matches the first descriptor's matcher, and else an error with
    no timeline. *)
Theorem ConstructTimelines_outcomes g description :
  wf g →
  (description = [] →
     ConstructTimelines g description = Panic index_out_of_range) ∧
  (∀ d0, description !! 0 = Some d0 →
     ∃ timelines err,
       ConstructTimelines g description = Ok (timelines, err) ∧
       (err = None ↔
          ∃ es e, es ∈ g_Entries g ∧ e ∈ es ∧ point_Matcher d0 e = true) ∧
       (err = None → length timelines = length (g_Keys g)) ∧
       (err ≠ None → timelines = [])).
Proof using sort_Sort_Permutation.
  intros Hwf. split; [by intros -> |]. intros d0 Hd.
  destruct (first_outcome g (point_Matcher d0))
    as [[Hnil Hrun] | (a & Hin & Hrun)].
  - eexists [], (Some _). split.
    { unfold ConstructTimelines, index. rewrite Hd. simpl.
      rewrite Hrun. simpl. done. }
    split; [| split; [done | done]]. split; [done |].
    intros (es & e & Hes & He & Hm).
    by destruct (candidates_nonempty g (point_Matcher d0) es e Hes He Hm).
  - eexists _, None. split.
    { eapply ConstructTimelines_found; [| done | done].
      by rewrite (wf_length _ Hwf). }
    split; [| split; [| done]].
    + split; [| done]. intros _.
      apply candidates_elem_of in Hin as (Hm & es & Hes & Ha).
      by exists es, a.
    + intros _. rewrite length_fmap. unfold groups. rewrite length_zip.
      rewrite (wf_length _ Hwf). lia.
Qed.

Lemma IsSorted_tail a e : IsSorted (a :: e) = true → IsSorted e = true.
Proof.
  destruct e as [| b e]; [done |]. cbn [IsSorted].
  by intros [_ Hs]%andb_prop.
Qed.

Lemma IsSorted_lookup e i j a b :
  IsSorted e = true → e !! i = Some a → e !! j = Some b → i ≤ j →
  Less b a = false.
Proof using Less_irreflexive Less_false_transitive.
  revert i j. induction e as [| x e IH]; intros i j Hs Hi Hj Hle; [done |].
  destruct i as [| i].
  - injection Hi as ->. eapply IsSorted_head_least; [done |].
    by eapply list_elem_of_lookup_2.
  - destruct j as [| j]; [lia |].
    eapply (IH i j); [by eapply IsSorted_tail | done | done | lia].
Qed.

(** X14. When every group is sorted, the anchor is least among all the
    matching entries of the map, not only among the first matches of the
    groups: no entry that matches is less than it. *)
Theorem anchor_least_of_sorted_groups g matcher :
  (∀ es, es ∈ g_Entries g → IsSorted es = true) →
  (∃ es e, es ∈ g_Entries g ∧ e ∈ es ∧ matcher e = true) →
  ∃ anchor,
    first g matcher = Ok (anchor, true) ∧
    matcher anchor = true ∧
    ∀ es e, es ∈ g_Entries g → e ∈ es → matcher e = true →
      Less e anchor = false.
Proof using Less_irreflexive Less_false_transitive
            sort_Sort_Permutation sort_Sort_IsSorted.
  intros Hsorted (es0 & e0 & Hes0 & He0 & Hm0).
  destruct (first_least g matcher) as (a & Hrun & Hin & Hmin);
    [by eapply candidates_nonempty |].
  exists a. split; [done |].
  split; [by apply candidates_elem_of in Hin as [Hm _] |].
  intros es e Hes He Hm.
  destruct (first_match matcher es) as [c |] eqn:Hc.
  - assert (Hcin : c ∈ candidates g matcher)
      by (apply list_elem_of_omap; by exists es).
    apply first_match_Some in Hc as (i & Hi & Hmc & Hbefore).
    apply list_elem_of_lookup_1 in He as [j Hj].
    assert (Hij : i ≤ j).
    { destruct (decide (i ≤ j)) as [| Hlt]; [done |].
      rewrite (Hbefore j e Hj) in Hm; [done | lia]. }
    eapply Less_false_transitive; [| by apply Hmin].
    eapply IsSorted_lookup; [by apply Hsorted | done | done | done].
  - rewrite first_match_None in Hc. rewrite (Hc e He) in Hm. done.
Qed.

End anchor.

End dsl.


(** * cicerone/viz: the colours of [viz/shared.go] *)
Module viz.

(** [color.RGBA]: four [uint8] components. *)
Record RGBA := mkRGBA { R : Z; G : Z; B : Z; A : Z }.

#[global] Instance RGBA_eq_dec : EqDecision RGBA.
Proof. solve_decision. Defined.

Definition is_uint8 (z : Z) : Prop := (0 ≤ z < 256)%Z.

Definition OrderedColors : list RGBA := [
  mkRGBA 0 0 0 255;
  mkRGBA 255 0 0 255;
  mkRGBA 0 200 0 255;
  mkRGBA 0 0 255 255;
  mkRGBA 125 0 0 255;
  mkRGBA 0 125 0 255;
  mkRGBA 0 0 125 255;
  mkRGBA 125 125 0 255;
  mkRGBA 125 0 125 255;
  mkRGBA 0 125 125 255;
  mkRGBA 125 125 125 255;
  mkRGBA 200 200 200 255;
  mkRGBA 255 125 0 255;
  mkRGBA 0 125 255 255;
  mkRGBA 0 0 0 255;
  mkRGBA 255 0 0 255;
  mkRGBA 0 200 0 255;
  mkRGBA 0 0 255 255;
  mkRGBA 125 0 0 255;
  mkRGBA 0 125 0 255;
  mkRGBA 0 0 125 255;
  mkRGBA 125 125 0 255;
  mkRGBA 125 0 125 255;
  mkRGBA 0 125 125 255;
  mkRGBA 125 125 125 255;
  mkRGBA 200 200 200 255;
  mkRGBA 255 125 0 255;
  mkRGBA 0 125 255 255
].

(** X16. [OrderedColors] has 28 entries, all opaque and within [uint8],
    but 14 colours only: the first 14 entries are pairwise different and
    the entry at [i + 14] is the entry at [i]. *)
Theorem OrderedColors_repeat_after_14 :
  length OrderedColors = 28 ∧
  Forall (λ c, is_uint8 (R c) ∧ is_uint8 (G c) ∧ is_uint8 (B c) ∧
               A c = 255%Z) OrderedColors ∧
  NoDup (take 14 OrderedColors) ∧
  ∀ i c, OrderedColors !! (i + 14) = Some c → OrderedColors !! i = Some c.
Proof.
  split; [reflexivity |]. split; [| split].
  - unfold is_uint8. repeat constructor; simpl; lia.
  - apply (bool_decide_unpack _). vm_compute. exact I.
  - intros i c. do 14 (destruct i as [| i]; [intros H; exact H |]).
    intros H. apply lookup_lt_Some in H. simpl in H. lia.
Qed.

End viz.

(** * A concrete instance

    Keys are strings; an entry is a timestamp with a message; [Less]
    compares timestamps; [sort.Sort] is an insertion sort. *)
Module example.

Definition entry : Type := nat * string.
Definition zero : entry := (0, EmptyString).

Definition before (x y : entry) : bool := x.1 <? y.1.

Fixpoint insert (x : entry) (l : list entry) : list entry :=
  match l with
  | [] => [x]
  | y :: l' => if before x y then x :: l else y :: insert x l'
  end.

Definition insertion_sort (l : list entry) : list entry :=
  foldr insert [] l.

(** A timeline point: its name and its matcher. *)
Record point := { name : string; accepts : entry → bool }.

Definition any : point := {| name := "any"; accepts := λ _, true |}.
Definition none : point := {| name := "none"; accepts := λ _, false |}.
Definition late : point := {| name := "late"; accepts := λ e, 1 <? e.1 |}.

(** A timeline keeps, next to its annotation, the anchor and the first
    match of every point. *)
Definition construct (es : list entry) (description : list point)
    (anchor : entry) : Timeline (K := string) (TimelineRest := entry * list entry) :=
  {| Annotation := EmptyString;
     t_rest := (anchor,
                (λ d, (Entries_First zero es (accepts d)).1) <$> description) |}.

Definition e1 : entry := (1, "start").
Definition e2 : entry := (5, "stop").
Definition e3 : entry := (2, "start").

(** The groups [{"A": [e1, e2], "B": [e3]}]. *)
Definition gAB : GroupedEntries (K := string) (Entry := entry) :=
  {| g_Keys := ["A"; "B"];
     g_Entries := [[e1; e2]; [e3]];
     g_lookup := Some (<["B" := 1]> (<["A" := 0]> ∅)) |}.

(** The same groups, ["B"] first. *)
Definition gBA : GroupedEntries (K := string) (Entry := entry) :=
  {| g_Keys := ["B"; "A"];
     g_Entries := [[e3]; [e1; e2]];
     g_lookup := Some (<["A" := 1]> (<["B" := 0]> ∅)) |}.

(** Sinks: one that rejects every write, one that accepts the first write
    only, and one that rejects the first write only; the last two record
    what they accept. *)
Definition reject (w : list string) (text : string)
    : error * list string :=
  (Some "broken pipe", w).

Definition accept_first (w : nat * list string) (text : string)
    : error * (nat * list string) :=
  if w.1 =? 0 then (None, (1, w.2 ++ [text]))
  else (Some "disk full", (S w.1, w.2)).

Definition reject_first (w : nat * list string) (text : string)
    : error * (nat * list string) :=
  if w.1 =? 0 then (Some "short write", (1, w.2))
  else (None, (S w.1, w.2 ++ [text])).

(** Modelled from the spec: [Entries.WriteLagerFormatTo], missing from
    the sources; "a textual formatter (WriteFormattedTo(writer) ->
    error)": one write per entry, up to the first write that fails. *)
Fixpoint write_entries {W} (Write : W → string → error * W)
    (es : list entry) (w : W) : error * W :=
  match es with
  | [] => (None, w)
  | e :: es' =>
      let '(err, w') := Write w (e.2 +:+ newline) in
      match err with
      | Some _ => (err, w')
      | None => write_entries Write es' w'
      end
  end.

Lemma before_irreflexive x : before x x = false.
Proof. unfold before. apply Nat.ltb_irrefl. Qed.

Lemma before_false_transitive x y z :
  before x y = false → before y z = false → before x z = false.
Proof. unfold before. rewrite !Nat.ltb_ge. lia. Qed.

Lemma insert_Permutation x l : insert x l ≡ₚ x :: l.
Proof.
  induction l as [| y l IH]; simpl; [done |].
  destruct (before x y); [done |]. rewrite IH. apply Permutation_swap.
Qed.

Lemma insertion_sort_Permutation l : insertion_sort l ≡ₚ l.
Proof.
  induction l as [| x l IH]; simpl; [done |].
  by rewrite insert_Permutation, IH.
Qed.

Lemma IsSorted_cons x y l :
  IsSorted before (x :: y :: l) = negb (before y x) && IsSorted before (y :: l).
Proof. done. Qed.

Lemma insert_IsSorted x l :
  IsSorted before l = true → IsSorted before (insert x l) = true.
Proof.
  induction l as [| y l IH]; [done |]. intros Hs.
  cbn [insert]. destruct (before x y) eqn:Hxy.
  - rewrite IsSorted_cons, Hs, andb_true_r. apply negb_true_iff.
    unfold before in *. apply Nat.ltb_lt in Hxy. apply Nat.ltb_ge. lia.
  - destruct l as [| z l].
    + cbn [insert]. by rewrite IsSorted_cons, Hxy.
    + rewrite IsSorted_cons in Hs. apply andb_prop in Hs as [Hzy Hs].
      specialize (IH Hs). cbn [insert] in IH |- *.
      destruct (before x z).
      * by rewrite IsSorted_cons, Hxy.
      * by rewrite IsSorted_cons, Hzy.
Qed.

Lemma insertion_sort_IsSorted l : IsSorted before (insertion_sort l) = true.
Proof.
  induction l as [| x l IH]; [done |]. simpl. by apply insert_IsSorted.
Qed.

Lemma wf_gAB : wf gAB.
Proof.
  apply (do_calls_wf [CallAppend "A" e1; CallAppend "B" e3;
                      CallAppend "A" e2]).
  vm_compute. reflexivity.
Qed.

Lemma wf_gBA : wf gBA.
Proof.
  apply (do_calls_wf [CallAppend "B" e3; CallAppendEntries "A" [e1; e2]]).
  vm_compute. reflexivity.
Qed.

(** The end-to-end example: the anchor is [e1], in either order of the
    groups. *)
Lemma anchor_is_least_candidate_witness :
  ∃ anchor,
    ConstructTimelines zero insertion_sort accepts name construct gBA [any]
      = Ok (timeline_of construct [any] anchor <$> groups gBA, None) ∧
    anchor = e1.
Proof.
  destruct (ConstructTimelines_anchor_is_least_candidate
              zero before insertion_sort accepts name construct
              before_irreflexive before_false_transitive
              insertion_sort_Permutation insertion_sort_IsSorted
              gBA [any] any wf_gBA eq_refl)
    as (anchor & _ & _ & Hrun & Htwo).
  - exists [e1; e2], e1.
    split; [right; left |]. split; [left | reflexivity].
  - exists anchor. split; [exact Hrun |].
    apply (Htwo [e1; e2] [e3] e1 e3); [reflexivity .. |]. by right.
Defined.

Lemma one_per_group_witness :
  ∃ timelines,
    ConstructTimelines zero insertion_sort accepts name construct gAB [any]
      = Ok (timelines, None) ∧
    Annotation <$> timelines = ["A"; "B"].
Proof.
  destruct (ConstructTimelines_one_per_group
              zero insertion_sort accepts name construct
              gAB [any] any e1 wf_gAB eq_refl)
    as (timelines & Hrun & _ & Hkeys & _).
  - vm_compute. reflexivity.
  - by exists timelines.
Defined.

Lemma anchor_not_found_witness :
  ConstructTimelines zero insertion_sort accepts name construct gAB [none]
    = Ok ([], Some "unable to find first entry to anchor timelines none").
Proof.
  apply (proj1 (ConstructTimelines_anchor_not_found
                  zero insertion_sort accepts name construct
                  [none] none eq_refl)).
  intros es e _ _. reflexivity.
Defined.

Lemma Filter_keeps_matching_entries_witness :
  ∃ q g',
    ptr_Filter 3 0 (accepts late) {[ 0 := gAB ]}
      = Some (Ok (q, <[q := g']> {[ 0 := gAB ]})) ∧
    <[q := g']> ({[ 0 := gAB ]} : gmap nat _) !! 0 = Some gAB ∧
    g_Keys g' = ["A"; "B"] ∧ g_Entries g' = [[e2]; [e3]].
Proof.
  destruct (Filter_keeps_matching_entries 3 0 (accepts late)
              {[ 0 := gAB ]} gAB)
    as (q & g' & Hrun & _ & Hrecv & _ & Hkeys & Hent & _).
  - apply lookup_singleton_eq.
  - apply wf_gAB.
  - simpl. lia.
  - exists q, g'. rewrite Hkeys, Hent. by repeat split.
Defined.

(** A visitor that logs the keys it sees and fails on ["B"]. *)
Definition stop_at_B (key : string) (es : list entry) (log : list string)
    : result (error * list string) :=
  Ok (if decide (key = "B") then Some "stop" else None, log ++ [key]).

(** A visitor that logs the keys it sees. *)
Definition log_keys (key : string) (es : list entry) (log : list string)
    : result (error * list string) :=
  Ok (None, log ++ [key]).

Lemma EachGroup_short_circuits_witness :
  EachGroup gBA stop_at_B [] = Ok (Some "stop", ["B"]) ∧
  EachGroup gAB stop_at_B [] = Ok (Some "stop", ["A"; "B"]) ∧
  EachGroup gAB log_keys [] = Ok (None, ["A"; "B"]).
Proof.
  split; [| split].
  - apply (proj1 (EachGroup_short_circuits gBA stop_at_B wf_gBA)
             [] "B" [e3] [("A", [e1; e2])] [] []);
      [reflexivity | constructor | reflexivity].
  - apply (proj1 (EachGroup_short_circuits gAB stop_at_B wf_gAB)
             [("A", [e1; e2])] "B" [e3] [] [] ["A"]);
      [reflexivity | | reflexivity].
    eapply visited_cons; [reflexivity | constructor].
  - apply (proj2 (EachGroup_short_circuits gAB log_keys wf_gAB)).
    eapply visited_cons; [reflexivity |].
    eapply visited_cons; [reflexivity |]. constructor.
Defined.

Lemma reachable_invariant_witness :
  length (g_Keys gAB) = length (g_Entries gAB) ∧
  NoDup (g_Keys gAB) ∧
  ∀ k, k ∈ g_Keys gAB →
    ∃ i, map_read (g_lookup gAB) k = (i, true) ∧
         g_Keys gAB !! i = Some k ∧
         ∀ j, g_Keys gAB !! j = Some k → j = i.
Proof.
  apply reachable_invariant.
  apply (reachable_Filter gAB (accepts any)); [| vm_compute; reflexivity].
  apply (do_calls_reachable
           [CallAppend "A" e1; CallAppend "B" e3; CallAppend "A" e2]).
  vm_compute. reflexivity.
Defined.

Lemma AppendEntries_registers_empty_group_witness :
  ∃ g', AppendEntries gAB "C" [] = Ok g' ∧
        g_Keys g' = ["A"; "B"; "C"] ∧
        Lookup g' "C" = Ok ([], true).
Proof.
  destruct (AppendEntries_registers_empty_group gAB "C" wf_gAB)
    as (g' & Hrun & Hkeys & Hlookup & _).
  - intros Hin. apply elem_of_cons in Hin as [Heq | Hin]; [done |].
    apply elem_of_cons in Hin as [Heq | Hin]; [done |].
    by apply elem_of_nil in Hin.
  - by exists g'.
Defined.

(** C2.  Filtering and grouping do not commute in the order of the keys.
    Of three entries with keys A, B, A of which the matcher rejects the
    first, filtering first sees B before A, while grouping first keeps A
    (whose group is not emptied) before B. *)
Theorem Filter_GroupBy_key_order :
  let entries : list entry := [(1, "A"); (2, "B"); (3, "A")] in
  (g ← GroupBy (Entries_Filter entries (accepts late)) snd;
   Ok (g_Keys g, g_Entries g))
    = Ok (["B"; "A"], [[(2, "B")]; [(3, "A")]]) ∧
  (g ← GroupBy entries snd; g' ← Filter g (accepts late);
   Ok (g_Keys g', g_Entries g'))
    = Ok (["A"; "B"], [[(3, "A")]; [(2, "B")]]).
Proof. split; vm_compute; reflexivity. Qed.

(** C5.  [WriteLagerFormatTo] returns a nil error on a sink that rejects
    every write.  On a sink that accepts the key line of the first group
    and rejects the next write, the dump stops there and still returns a
    nil error.  On a sink that rejects the key line of the first group
    only, the writes after the rejected one go through. *)
Theorem WriteLagerFormatTo_drops_write_failure :
  (∀ w text, (reject w text).1 = Some "broken pipe") ∧
  WriteLagerFormatTo reject id (write_entries reject) gAB []
    = Ok (None, []) ∧
  (accept_first (1, ["A" +:+ newline]) ("start" +:+ newline)).1
    = Some "disk full" ∧
  WriteLagerFormatTo accept_first id (write_entries accept_first) gAB (0, [])
    = Ok (None, (2, ["A" +:+ newline])) ∧
  (reject_first (0, []) ("A" +:+ newline)).1 = Some "short write" ∧
  WriteLagerFormatTo reject_first id (write_entries reject_first) gAB (0, [])
    = Ok (None, (5, ["start" +:+ newline; "stop" +:+ newline;
                     "B" +:+ newline; "start" +:+ newline])).
Proof. repeat split; vm_compute; reflexivity. Qed.

(** ** Instances of the further properties *)

(** The zero value [GroupedEntries{}]. *)
Definition gZero : GroupedEntries (K := string) (Entry := entry) :=
  {| g_Keys := []; g_Entries := []; g_lookup := None |}.

(** A struct put together by hand, with a key that has no group. *)
Definition gShort : GroupedEntries (K := string) (Entry := entry) :=
  {| g_Keys := ["A"; "B"];
     g_Entries := [[e1]];
     g_lookup := Some (<["B" := 1]> (<["A" := 0]> ∅)) |}.

(** A map with numbers for keys. *)
Definition gN : GroupedEntries (K := nat) (Entry := entry) :=
  {| g_Keys := [7]; g_Entries := [[e1]]; g_lookup := Some {[ 7 := 0 ]} |}.

(** A visitor that appends, to the map at address 0, an empty group under
    a key greater than all its keys. *)
Definition add_key (key : nat) (es : list entry)
    (h : gmap nat (GroupedEntries (K := nat) (Entry := entry)))
    : result (error * gmap nat (GroupedEntries (K := nat) (Entry := entry))) :=
  g ← deref h 0;
  h' ← ptr_AppendEntries 0 (S (foldr max 0 (g_Keys g))) [] h;
  Ok (None, h').

Lemma reachable_gAB : reachable gAB.
Proof.
  apply (do_calls_reachable
           [CallAppend "A" e1; CallAppend "B" e3; CallAppend "A" e2]).
  vm_compute. reflexivity.
Qed.

Lemma wf_gN : wf gN.
Proof.
  apply (do_calls_wf [CallAppend 7 e1]). vm_compute. reflexivity.
Qed.

Lemma foldr_max_fresh (l : list nat) : S (foldr max 0 l) ∉ l.
Proof.
  assert (Hle : ∀ x, x ∈ l → x ≤ foldr max 0 l).
  { induction l as [| y l IH]; intros x Hx; [by apply elem_of_nil in Hx |].
    simpl. apply elem_of_cons in Hx as [-> | Hx]; [lia |].
    specialize (IH x Hx). lia. }
  intros Hin. apply Hle in Hin. lia.
Qed.

Lemma add_key_grows key es
    (h : gmap nat (GroupedEntries (K := nat) (Entry := entry))) g :
  h !! 0 = Some g → wf g →
  ∃ (h' : gmap nat (GroupedEntries (K := nat) (Entry := entry))) g',
    add_key key es h = Ok (None, h') ∧ h' !! 0 = Some g' ∧ wf g' ∧
    length (g_Keys g) < length (g_Keys g').
Proof.
  intros Hp Hwf. destruct (wf_lookup _ Hwf) as (m & Hm & _).
  pose proof (foldr_max_fresh (g_Keys g)) as Hfresh.
  unfold add_key, ptr_AppendEntries, deref. rewrite Hp. simpl.
  rewrite (AppendEntries_unseen g _ [] m Hwf Hm Hfresh). simpl.
  eexists _, _. split; [done |]. split; [apply lookup_insert_eq |].
  split; [by apply wf_unseen |]. simpl. rewrite length_app. simpl. lia.
Qed.

Lemma AppendEntries_then_Lookup_witness :
  ∃ g', AppendEntries gAB "A" [e3] = Ok g' ∧
        Lookup g' "A" = Ok ([e1; e2; e3], true) ∧
        Lookup g' "B" = Ok ([e3], true).
Proof.
  destruct (AppendEntries_then_Lookup gAB "A" [e3] wf_gAB)
    as (g' & old & found & Hrun & Hold & Hnew & Hother).
  exists g'. split; [exact Hrun |].
  vm_compute in Hold. injection Hold as <- <-.
  split; [exact Hnew |]. rewrite (Hother "B") by done.
  vm_compute. reflexivity.
Defined.

Lemma nil_lookup_witness :
  Lookup gZero "A" = Ok ([], false) ∧
  AppendEntries gZero "A" [e1] = Panic assignment_to_nil_map ∧
  Append gZero "A" e1 = Panic assignment_to_nil_map.
Proof.
  apply (nil_lookup_reads_but_panics_on_append gZero "A" [e1] e1).
  reflexivity.
Defined.

Lemma reachable_calls_return_witness :
  ∃ g', AppendEntries gAB "C" [] = Ok g'.
Proof.
  apply (proj1 (reachable_calls_return gAB reachable_gAB)).
Defined.

Lemma calls_only_grow_witness :
  ∃ g', do_calls gAB [CallAppend "C" e3; CallAppend "A" e3] = Ok g' ∧
        ["A"; "B"] `prefix_of` g_Keys g'.
Proof.
  destruct (calls_only_grow gAB [CallAppend "C" e3; CallAppend "A" e3]
              wf_gAB) as (g' & Hrun & _ & Hkeys & _).
  by exists g'.
Defined.

Lemma Filter_twice_witness :
  ∃ g1 g2,
    Filter gAB (accepts late) = Ok g1 ∧
    Filter g1 (accepts any) = Ok g2 ∧
    Filter g1 (accepts late) = Ok g1.
Proof.
  destruct (Filter_twice gAB (accepts late) (accepts any) wf_gAB)
    as (g1 & g2 & H1 & H2 & _ & H3).
  by exists g1, g2.
Defined.

Lemma Filter_accept_all_witness : Filter gAB (accepts any) = Ok gAB.
Proof.
  apply Filter_accept_all; [apply wf_gAB | | reflexivity].
  intros Hin. apply elem_of_cons in Hin as [Heq | Hin]; [done |].
  apply elem_of_cons in Hin as [Heq | Hin]; [done |].
  by apply elem_of_nil in Hin.
Defined.

Lemma Filter_reject_all_witness :
  Filter gAB (accepts none) = Ok NewGroupedEntries.
Proof. apply Filter_reject_all; [apply wf_gAB | reflexivity]. Defined.

Lemma first_after_Filter_witness :
  ∃ gf, Filter gAB (accepts late) = Ok gf ∧
        first zero insertion_sort gf (accepts late)
          = first zero insertion_sort gAB (accepts late).
Proof.
  destruct (first_after_Filter zero insertion_sort gAB (accepts late) wf_gAB)
    as (gf & Hrun & _ & Hfirst).
  by exists gf.
Defined.

Lemma EachGroup_index_out_of_range_witness :
  EachGroup gShort log_keys [] = Panic index_out_of_range.
Proof.
  apply (EachGroup_index_out_of_range gShort log_keys [] ["A"]).
  - simpl. lia.
  - eapply visited_cons; [reflexivity | constructor].
Defined.

Lemma WriteLagerFormatTo_writes_in_order_witness :
  WriteLagerFormatTo accept_first id (write_entries accept_first) gAB (0, [])
    = Ok (None, (2, ["A" +:+ newline])).
Proof.
  apply (proj1 (WriteLagerFormatTo_writes_in_order
                  accept_first id (write_entries accept_first) gAB wf_gAB)
           [] "A" [e1; e2] [("B", [e3])] (0, []) (0, []) _ "disk full");
    [reflexivity | constructor | reflexivity].
Defined.

Lemma first_returns_matching_entry_witness :
  ∃ anchor found,
    first zero insertion_sort gAB (accepts late) = Ok (anchor, found) ∧
    (found = true → accepts late anchor = true).
Proof.
  destruct (first_returns_matching_entry zero insertion_sort
              insertion_sort_Permutation gAB (accepts late))
    as (anchor & found & Hrun & Hfound & _).
  exists anchor, found. split; [exact Hrun |].
  intros Hf. by destruct (Hfound Hf).
Defined.

Lemma ConstructTimelines_outcomes_witness :
  ∃ timelines err,
    ConstructTimelines zero insertion_sort accepts name construct gAB [late]
      = Ok (timelines, err) ∧
    (err = None → length timelines = 2).
Proof.
  destruct (proj2 (ConstructTimelines_outcomes
                     zero insertion_sort accepts name construct
                     insertion_sort_Permutation gAB [late] wf_gAB)
              late eq_refl)
    as (timelines & err & Hrun & _ & Hlen & _).
  by exists timelines, err.
Defined.

Lemma anchor_least_of_sorted_groups_witness :
  ∃ anchor,
    first zero insertion_sort gAB (accepts late) = Ok (anchor, true) ∧
    before e3 anchor = false.
Proof.
  destruct (anchor_least_of_sorted_groups
              zero before insertion_sort
              before_irreflexive before_false_transitive
              insertion_sort_Permutation insertion_sort_IsSorted
              gAB (accepts late))
    as (anchor & Hrun & _ & Hleast).
  - intros es Hes. apply elem_of_cons in Hes as [-> | Hes]; [reflexivity |].
    apply elem_of_cons in Hes as [-> | Hes]; [reflexivity |].
    by apply elem_of_nil in Hes.
  - exists [e3], e3. split; [right; left |]. split; [left | reflexivity].
  - exists anchor. split; [exact Hrun |].
    apply (Hleast [e3] e3); [right; left | left | reflexivity].
Defined.

Lemma ptr_EachGroup_never_returns_witness :
  ptr_EachGroup 1000 0 add_key {[ 0 := gN ]} = None.
Proof.
  apply (ptr_EachGroup_never_returns add_key 0 {[ 0 := gN ]} gN 1000).
  - intros key es h g. apply add_key_grows.
  - apply lookup_singleton_eq.
  - apply wf_gN.
  - done.
Defined.

Lemma Lookup_agrees_with_groups_witness :
  Lookup gAB "B" = Ok ([e3], true) ∧ Lookup gAB "C" = Ok ([], false).
Proof.
  destruct (Lookup_agrees_with_groups gAB "B" wf_gAB) as [Hfound _].
  destruct (Lookup_agrees_with_groups gAB "C" wf_gAB) as [_ Hmissing].
  split.
  - apply Hfound. right. left.
  - apply Hmissing. intros Hin.
    apply elem_of_cons in Hin as [Heq | Hin]; [done |].
    apply elem_of_cons in Hin as [Heq | Hin]; [done |].
    by apply elem_of_nil in Hin.
Defined.

Lemma AppendEntries_in_parts_witness :
  AppendEntries gAB "C" ([e1] ++ [e2])
    = (g' ← AppendEntries gAB "C" [e1]; AppendEntries g' "C" [e2]) ∧
  do_calls gAB (CallAppend "C" <$> [e1; e2]) = AppendEntries gAB "C" [e1; e2].
Proof.
  destruct (AppendEntries_in_parts gAB "C" [e1] [e2] wf_gAB) as [Hparts _].
  destruct (AppendEntries_in_parts gAB "C" [] [e1; e2] wf_gAB)
    as [_ Hcalls].
  split; [exact Hparts | by apply Hcalls].
Defined.

(** A visitor that copies every group into the map at address 1, and what
    it does to that map. *)
Definition copy_to_1 (key : string) (es : list entry)
    (h : gmap nat (GroupedEntries (K := string) (Entry := entry)))
    : result (error * gmap nat (GroupedEntries (K := string) (Entry := entry))) :=
  h' ← ptr_AppendEntries 1 key es h; Ok (None, h').

Definition copy (key : string) (es : list entry)
    (g : GroupedEntries (K := string) (Entry := entry))
    : result (error * GroupedEntries (K := string) (Entry := entry)) :=
  g' ← AppendEntries g key es; Ok (None, g').

Lemma ptr_EachGroup_returns_witness :
  ptr_EachGroup 3 0 copy_to_1 (<[1 := NewGroupedEntries]> {[ 0 := gAB ]})
    = Some (Ok (None, <[1 := gAB]> {[ 0 := gAB ]})).
Proof.
  rewrite (ptr_EachGroup_returns (λ g, <[1 := g]> {[ 0 := gAB ]})
             copy_to_1 copy 3 0 gAB NewGroupedEntries).
  - vm_compute. reflexivity.
  - intros g. by rewrite lookup_insert_ne, lookup_singleton_eq.
  - intros key es g. unfold copy_to_1, copy, ptr_AppendEntries, deref.
    rewrite lookup_insert_eq. simpl.
    destruct (AppendEntries g key es) as [g' | e]; simpl; [| done].
    by rewrite insert_insert_eq.
  - apply wf_gAB.
  - simpl. lia.
Defined.

(** ** Visitors and the receiver *)

(** The map [{"A": [e1, e2]}]. *)
Definition gA : GroupedEntries (K := string) (Entry := entry) :=
  {| g_Keys := ["A"];
     g_Entries := [[e1; e2]];
     g_lookup := Some (<["A" := 0]> ∅) |}.

(** A visitor that copies the group it is given into the map at address 1
    and then empties the receiver, the map at address 0; it returns
    nil. *)
Definition copy_and_truncate (key : string) (es : list entry)
    (h : gmap nat (GroupedEntries (K := string) (Entry := entry)))
    : result (error * gmap nat (GroupedEntries (K := string) (Entry := entry))) :=
  h' ← ptr_AppendEntries 1 key es h;
  Ok (None, <[0 := NewGroupedEntries]> h').

(** The receiver [gAB] at address 0 and a new map at address 1. *)
Definition heap0 : gmap nat (GroupedEntries (K := string) (Entry := entry)) :=
  <[1 := NewGroupedEntries]> {[ 0 := gAB ]}.

Lemma copy_to_1_keeps_receiver key es
    (h h' : gmap nat (GroupedEntries (K := string) (Entry := entry))) err :
  h !! 0 = Some gAB → copy_to_1 key es h = Ok (err, h') →
  h' !! 0 = Some gAB.
Proof.
  intros Hp. unfold copy_to_1, ptr_AppendEntries, deref.
  destruct (h !! 1) as [g1 |]; simpl; [| done].
  destruct (AppendEntries g1 key es) as [g1' | e]; simpl; [| done].
  intros [= <- <-]. by rewrite lookup_insert_ne.
Qed.

Lemma EachGroup_short_circuits_when_receiver_kept_witness :
  ptr_EachGroup 3 0 copy_to_1 heap0
    = Some (Ok (None, <[1 := gAB]> {[ 0 := gAB ]})).
Proof.
  apply (proj2 (EachGroup_short_circuits_when_receiver_kept
                  copy_to_1 3 0 gAB wf_gAB ltac:(simpl; lia)
                  copy_to_1_keeps_receiver)).
  - vm_compute. reflexivity.
  - apply (visited_cons _ "A" [e1; e2] _ _ (<[1 := gA]> {[ 0 := gAB ]}));
      [vm_compute; reflexivity |].
    apply (visited_cons _ "B" [e3] _ _ (<[1 := gAB]> {[ 0 := gAB ]}));
      [vm_compute; reflexivity |].
    constructor.
Defined.

(** With [copy_and_truncate] every call returns nil, on ["A"] and, were it
    called, on ["B"]; but the first call empties the receiver, the loop
    ends at its next test, and ["B"] is never visited: only ["A"] is
    copied. *)
Lemma EachGroup_skips_group_when_receiver_truncated :
  heap0 !! 0 = Some gAB ∧
  visited copy_and_truncate (groups gAB) heap0
    (<[0 := NewGroupedEntries]> (<[1 := gAB]> {[ 0 := gAB ]})) ∧
  ptr_EachGroup 3 0 copy_and_truncate heap0
    = Some (Ok (None, <[0 := NewGroupedEntries]> (<[1 := gA]> {[ 0 := gAB ]})))
  ∧
  ptr_EachGroup 3 0 copy_and_truncate heap0
    ≠ Some (Ok (None,
                <[0 := NewGroupedEntries]> (<[1 := gAB]> {[ 0 := gAB ]}))).
Proof.
  split; [vm_compute; reflexivity |]. split; [| split].
  - apply (visited_cons _ "A" [e1; e2] _ _
             (<[0 := NewGroupedEntries]> (<[1 := gA]> {[ 0 := gAB ]})));
      [vm_compute; reflexivity |].
    apply (visited_cons _ "B" [e3] _ _
             (<[0 := NewGroupedEntries]> (<[1 := gAB]> {[ 0 := gAB ]})));
      [vm_compute; reflexivity |].
    constructor.
  - vm_compute. reflexivity.
  - intros Heq.
    apply (f_equal (λ r, match r with
                         | Some (Ok (_, h)) => g_Keys <$> h !! 1
                         | _ => None
                         end)) in Heq.
    vm_compute in Heq. discriminate Heq.
Qed.

End example.
